(** * AI image generator (src/App.tsx): the logic of the [App] component

    The component holds seven pieces of React state, registers one
    observer with the authentication provider, and has two asynchronous
    handlers, [generateImage] and [downloadImage].  The handlers are
    embedded as programs over the effects they perform (state setters,
    notifications, the clock, the DOM, and the awaited network calls), and
    are given two semantics: one that runs a single call to completion
    against the replies of the outside world, and one that suspends a call
    at each [await], so that calls and other events interleave. *)

From Stdlib Require Import List ZArith NArith Bool Lia String Ascii.
From Stdlib Require Import DecimalString DecimalPos DecimalZ.
From Stdlib Require Import Sorted FinFun.
From ExtLib Require Import Structures.Monad.
Import ListNotations.
Import MonadNotation.
Local Open Scope monad_scope.

Set Implicit Arguments.

(** ** JavaScript strings *)

Module JsString.

(** A JavaScript string is a sequence of UTF-16 code units. *)
Definition char16 := N.
Definition jsstring := list char16.

(** A literal of the source (all of them are ASCII). *)
Definition lit (s : string) : jsstring :=
  map N_of_ascii (list_ascii_of_string s).

(** WhiteSpace and LineTerminator of ECMAScript: what
    [String.prototype.trim] strips. *)
Definition is_white_space (c : char16) : bool :=
  ((9 <=? c) && (c <=? 13)               (* TAB LF VT FF CR *)
   || (c =? 32)                          (* SP *)
   || (c =? 160)                         (* NBSP *)
   || (c =? 5760)                        (* U+1680 *)
   || ((8192 <=? c) && (c <=? 8202))     (* U+2000 .. U+200A *)
   || (c =? 8232) || (c =? 8233)         (* LS PS *)
   || (c =? 8239) || (c =? 8287)         (* U+202F U+205F *)
   || (c =? 12288)                       (* U+3000 *)
   || (c =? 65279))%N.                   (* U+FEFF *)

Fixpoint trim_start (s : jsstring) : jsstring :=
  match s with
  | c :: s' => if is_white_space c then trim_start s' else s
  | [] => []
  end.

Definition trim_end (s : jsstring) : jsstring :=
  rev (trim_start (rev s)).

(** [s.trim()] *)
Definition trim (s : jsstring) : jsstring :=
  trim_end (trim_start s).

(** Truthiness of a string: the empty string is the only falsy one. *)
Definition truthy (s : jsstring) : bool :=
  match s with [] => false | _ :: _ => true end.

(** [s.slice(0, n)] for a non-negative [n]. *)
Definition slice0 (n : nat) (s : jsstring) : jsstring := firstn n s.

(** The character class [a-zA-Z0-9]. *)
Definition is_alnum (c : char16) : bool :=
  ((97 <=? c) && (c <=? 122)
   || (65 <=? c) && (c <=? 90)
   || (48 <=? c) && (c <=? 57))%N.

Definition hyphen : char16 := 45%N.

(** [s.replace(/[^a-zA-Z0-9]/g, '-')]: the regular expression has no
    [u] flag, so it visits the string one code unit at a time. *)
Definition replace_non_alnum (s : jsstring) : jsstring :=
  map (fun c => if is_alnum c then c else hyphen) s.

(** [n.toString()] for an integral number below 10^21 in magnitude,
    which every time value is: the decimal digits, with a sign. *)
Definition toString (n : Z) : jsstring :=
  lit (NilZero.string_of_int (Z.to_int n)).

End JsString.
Import JsString.

(** ** Data model *)

(** [interface GeneratedImage] *)
Module GeneratedImage.
Record t : Type := make {
  id : jsstring;
  url : jsstring;
  prompt : jsstring;
  timestamp : Z;
  size : jsstring;
  quality : jsstring
}.
End GeneratedImage.

(** The user of a session; the view reads its [email] only. *)
Module User.
Record t : Type := make { email : jsstring }.
End User.

(** What the authentication provider hands to an observer. *)
Module AuthState.
Record t : Type := make {
  user : option User.t;          (* [null] when signed out *)
  isLoading : bool
}.
End AuthState.

(** The argument of [blink.ai.generateImage]. *)
Module Request.
Record t : Type := make {
  prompt : jsstring;
  size : jsstring;
  quality : jsstring;
  n : Z
}.
End Request.

(** The reply of [blink.ai.generateImage]: [{ data }], an array of
    objects with a [url]. *)
Module Reply.
Record item : Type := make_item { url : jsstring }.
Record t : Type := make { data : list item }.
End Reply.

(** The state of the component: its seven [useState] cells. *)
Module App.
Record state : Type := make {
  user : option User.t;
  loading : bool;
  prompt : jsstring;
  size : jsstring;
  quality : jsstring;
  generating : bool;
  generatedImages : list GeneratedImage.t
}.

(** The initial values given to [useState]. *)
Definition initial : state :=
  {| user := None;
     loading := true;
     prompt := [];                       (* the empty string *)
     size := lit "1024x1024";
     quality := lit "high";
     generating := false;
     generatedImages := [] |}.
End App.

(** A call to one of the seven state setters.  [setGeneratedImages] is
    called with an updater function, the others with a value. *)
Inductive setter : Type :=
| setUser (u : option User.t)
| setLoading (b : bool)
| setPrompt (s : jsstring)
| setSize (s : jsstring)
| setQuality (s : jsstring)
| setGenerating (b : bool)
| setGeneratedImages (f : list GeneratedImage.t -> list GeneratedImage.t).

Definition apply_setter (s : setter) (st : App.state) : App.state :=
  match s with
  | setUser u =>
      App.make u (App.loading st) (App.prompt st) (App.size st)
        (App.quality st) (App.generating st) (App.generatedImages st)
  | setLoading b =>
      App.make (App.user st) b (App.prompt st) (App.size st)
        (App.quality st) (App.generating st) (App.generatedImages st)
  | setPrompt p =>
      App.make (App.user st) (App.loading st) p (App.size st)
        (App.quality st) (App.generating st) (App.generatedImages st)
  | setSize z =>
      App.make (App.user st) (App.loading st) (App.prompt st) z
        (App.quality st) (App.generating st) (App.generatedImages st)
  | setQuality q =>
      App.make (App.user st) (App.loading st) (App.prompt st) (App.size st)
        q (App.generating st) (App.generatedImages st)
  | setGenerating b =>
      App.make (App.user st) (App.loading st) (App.prompt st) (App.size st)
        (App.quality st) b (App.generatedImages st)
  | setGeneratedImages f =>
      App.make (App.user st) (App.loading st) (App.prompt st) (App.size st)
        (App.quality st) (App.generating st) (f (App.generatedImages st))
  end.

Definition apply_setters (l : list setter) (st : App.state) : App.state :=
  fold_left (fun acc s => apply_setter s acc) l st.

(** ** Effects *)

(** Handles on objects of the browser. *)
Definition element := nat.
Definition subscription := nat.
Record Response : Type := { response_id : nat }.
Record Blob : Type := { blob_id : nat }.

(** The synchronous calls the component makes. *)
Inductive effect : Type -> Type :=
| SetState (s : setter) : effect unit
| ToastError (msg : jsstring) : effect unit
| ToastSuccess (msg : jsstring) : effect unit
| DateNow : effect Z
| CreateObjectURL (b : Blob) : effect jsstring
| CreateElement (tag : jsstring) : effect element
| SetHref (a : element) (v : jsstring) : effect unit
| SetDownload (a : element) (v : jsstring) : effect unit
| AppendChild (a : element) : effect unit
| Click (a : element) : effect unit
| RevokeObjectURL (u : jsstring) : effect unit
| RemoveChild (a : element) : effect unit
| OnAuthStateChanged (cb : AuthState.t -> list setter) : effect subscription
| Unsubscribe (s : subscription) : effect unit
| Logout : effect unit.

(** The promises the component awaits. *)
Inductive awaited : Type -> Type :=
| AiGenerateImage (req : Request.t) : awaited Reply.t
| Fetch (u : jsstring) : awaited Response
| ResponseBlob (r : Response) : awaited Blob.

Inductive settled (X : Type) : Type :=
| Fulfilled (x : X)
| Rejected.
Arguments Fulfilled {X} x.
Arguments Rejected {X}.

(** Programs: the body of a handler, as the tree of the effects it
    performs.  [Throw] is a raised exception (its value is never read:
    both [catch] clauses of the source bind nothing). *)
Inductive prog (R : Type) : Type :=
| Ret (r : R)
| Throw
| Do (X : Type) (e : effect X) (k : X -> prog R)
| Await (X : Type) (e : awaited X) (k : settled X -> prog R).
Arguments Ret {R} r.
Arguments Throw {R}.
Arguments Do {R X} e k.
Arguments Await {R X} e k.

Fixpoint bind_prog (A B : Type) (p : prog A) (f : A -> prog B) : prog B :=
  match p with
  | Ret a => f a
  | Throw => Throw
  | Do e k => Do e (fun x => bind_prog (k x) f)
  | Await e k => Await e (fun r => bind_prog (k r) f)
  end.

#[export] Instance Monad_prog : Monad prog :=
  {| ret := @Ret; bind := @bind_prog |}.

Definition perform (X : Type) (e : effect X) : prog X := Do e Ret.

(** [await e]: the value of the promise, or the exception it rejects
    with. *)
Definition await (X : Type) (e : awaited X) : prog X :=
  Await e (fun r => match r with Fulfilled x => Ret x | Rejected => Throw end).

(** [try { body } catch { handler }] *)
Fixpoint try_catch (R : Type) (body handler : prog R) : prog R :=
  match body with
  | Ret r => Ret r
  | Throw => handler
  | Do e k => Do e (fun x => try_catch (k x) handler)
  | Await e k => Await e (fun r => try_catch (k r) handler)
  end.

(** [try { body } finally { cleanup }] *)
Fixpoint try_finally (R : Type) (body : prog R) (cleanup : prog unit) : prog R :=
  match body with
  | Ret r => bind_prog cleanup (fun _ => Ret r)
  | Throw => bind_prog cleanup (fun _ => Throw)
  | Do e k => Do e (fun x => try_finally (k x) cleanup)
  | Await e k => Await e (fun r => try_finally (k r) cleanup)
  end.

(** [a[0]]: reading a property of the [undefined] that an empty array
    gives raises a TypeError. *)
Definition first_item (d : list Reply.item) : prog Reply.item :=
  match d with
  | x :: _ => Ret x
  | [] => Throw
  end.

(** ** The handlers of [App] *)

Definition msg_enter_prompt : jsstring :=
  lit "Please enter a prompt to generate an image".
Definition msg_generated : jsstring := lit "Image generated successfully!".
Definition msg_generate_failed : jsstring :=
  lit "Failed to generate image. Please try again.".
Definition msg_downloaded : jsstring := lit "Image downloaded!".
Definition msg_download_failed : jsstring := lit "Failed to download image".

(** The observer given to [blink.auth.onAuthStateChanged]. *)
Definition authObserver (state : AuthState.t) : list setter :=
  [ setUser (AuthState.user state); setLoading (AuthState.isLoading state) ].

(** The body of [useEffect(..., [])]: it returns its cleanup, the
    function that [onAuthStateChanged] returned. *)
Definition mountEffect : prog subscription :=
  unsubscribe <- perform (OnAuthStateChanged authObserver) ;;
  ret unsubscribe.

(** React calls the cleanup when the component is torn down. *)
Definition cleanupEffect (unsubscribe : subscription) : prog unit :=
  perform (Unsubscribe unsubscribe).

(** The request that [generateImage] sends. *)
Definition request_of (st : App.state) : Request.t :=
  {| Request.prompt := trim (App.prompt st);
     Request.size := App.size st;
     Request.quality := App.quality st;
     Request.n := 1 |}.

(** The [try] block of [generateImage].  The fields of the object literal
    are evaluated in the order they are written. *)
Definition generateImage_try (st : App.state) : prog unit :=
  reply <- await (AiGenerateImage (request_of st)) ;;
  let data := Reply.data reply in
  now_id <- perform DateNow ;;
  first <- first_item data ;;
  now_ts <- perform DateNow ;;
  let newImage :=
    {| GeneratedImage.id := toString now_id;
       GeneratedImage.url := Reply.url first;
       GeneratedImage.prompt := trim (App.prompt st);
       GeneratedImage.timestamp := now_ts;
       GeneratedImage.size := App.size st;
       GeneratedImage.quality := App.quality st |} in
  perform (SetState (setGeneratedImages (fun prev => newImage :: prev))) ;;
  perform (ToastSuccess msg_generated).

(** [generateImage], a closure over the state [st] of the render that
    created it. *)
Definition generateImage (st : App.state) : prog unit :=
  if negb (truthy (trim (App.prompt st))) then
    perform (ToastError msg_enter_prompt)
  else
    perform (SetState (setGenerating true)) ;;
    try_finally
      (try_catch (generateImage_try st)
                 (perform (ToastError msg_generate_failed)))
      (perform (SetState (setGenerating false))).

(** The name given to the saved file. *)
Definition download_name (prompt : jsstring) : jsstring :=
  lit "ai-generated-" ++ replace_non_alnum (slice0 30 prompt) ++ lit ".png".

Definition downloadImage (imageUrl prompt : jsstring) : prog unit :=
  try_catch
    (response <- await (Fetch imageUrl) ;;
     blob <- await (ResponseBlob response) ;;
     url <- perform (CreateObjectURL blob) ;;
     a <- perform (CreateElement (lit "a")) ;;
     perform (SetHref a url) ;;
     perform (SetDownload a (download_name prompt)) ;;
     perform (AppendChild a) ;;
     perform (Click a) ;;
     perform (RevokeObjectURL url) ;;
     perform (RemoveChild a) ;;
     perform (ToastSuccess msg_downloaded))
    (perform (ToastError msg_download_failed)).

(** The handlers written inline in the view. *)
Definition onPromptChange (value : jsstring) : prog unit :=
  perform (SetState (setPrompt value)).
Definition onSizeChange (value : jsstring) : prog unit :=
  perform (SetState (setSize value)).
Definition onQualityChange (value : jsstring) : prog unit :=
  perform (SetState (setQuality value)).
Definition onSignOut : prog unit := perform Logout.

(** ** The world the component runs in *)

(** An anchor element and its two attributes. *)
Record anchor : Type := { href : jsstring; download : jsstring }.

(** The part of the browser that [downloadImage] touches. *)
Record browser : Type := {
  elements : list anchor;                (* every element created, by handle *)
  body : list element;                   (* the children of [document.body] *)
  objectURLs : list jsstring;            (* object URLs not yet revoked *)
  minted : nat;                          (* object URLs created so far *)
  saved : list (jsstring * jsstring)     (* downloads started: resource, file name *)
}.

(** Modelled from the spec: the authentication provider behind
    [blink.auth], whose code is not part of [App.tsx].  Subscribing
    registers a callback and returns the function that unregisters it; the
    callback receives [{user, isLoading}]; [logout()] ends the session.
    The provider is the list of the observers registered with it, each
    under the handle that unregisters it. *)
Record provider : Type := {
  observers : list (subscription * (AuthState.t -> list setter));
  issued : nat;                          (* subscriptions handed out so far *)
  logouts : nat
}.

Record machine : Type := {
  app : App.state;
  dom : browser;
  auth : provider;
  clock : nat -> Z;                      (* the value of the n-th reading *)
  ticks : nat                            (* readings taken so far *)
}.

Definition with_app (f : App.state -> App.state) (m : machine) : machine :=
  {| app := f (app m); dom := dom m; auth := auth m;
     clock := clock m; ticks := ticks m |}.

Definition with_dom (f : browser -> browser) (m : machine) : machine :=
  {| app := app m; dom := f (dom m); auth := auth m;
     clock := clock m; ticks := ticks m |}.

Definition with_auth (f : provider -> provider) (m : machine) : machine :=
  {| app := app m; dom := dom m; auth := f (auth m);
     clock := clock m; ticks := ticks m |}.

Definition tick (m : machine) : machine :=
  {| app := app m; dom := dom m; auth := auth m;
     clock := clock m; ticks := S (ticks m) |}.

Fixpoint update_nth (A : Type) (i : nat) (f : A -> A) (l : list A) : list A :=
  match l, i with
  | [], _ => []
  | x :: l', O => f x :: l'
  | x :: l', S j => x :: update_nth j f l'
  end.

Fixpoint remove_first (A : Type) (eqb : A -> A -> bool) (x : A) (l : list A)
  : list A :=
  match l with
  | [] => []
  | y :: l' => if eqb x y then l' else y :: remove_first eqb x l'
  end.

Definition jsstring_eqb (s t : jsstring) : bool :=
  if list_eq_dec N.eq_dec s t then true else false.

Definition object_url (k : nat) : jsstring :=
  lit "blob:" ++ toString (Z.of_nat k).

Definition blank_anchor : anchor := {| href := []; download := [] |}.

(** The browser's side of the DOM calls. *)
Definition dom_step (X : Type) (e : effect X) (b : browser) : browser :=
  match e with
  | CreateObjectURL _ =>
      {| elements := elements b; body := body b;
         objectURLs := object_url (minted b) :: objectURLs b;
         minted := S (minted b); saved := saved b |}
  | CreateElement _ =>
      {| elements := elements b ++ [blank_anchor]; body := body b;
         objectURLs := objectURLs b; minted := minted b; saved := saved b |}
  | SetHref a v =>
      {| elements :=
           update_nth a (fun x => {| href := v; download := download x |})
             (elements b);
         body := body b; objectURLs := objectURLs b;
         minted := minted b; saved := saved b |}
  | SetDownload a v =>
      {| elements :=
           update_nth a (fun x => {| href := href x; download := v |})
             (elements b);
         body := body b; objectURLs := objectURLs b;
         minted := minted b; saved := saved b |}
  | AppendChild a =>
      {| elements := elements b; body := body b ++ [a];
         objectURLs := objectURLs b; minted := minted b; saved := saved b |}
  | Click a =>
      {| elements := elements b; body := body b;
         objectURLs := objectURLs b; minted := minted b;
         saved :=
           match nth_error (elements b) a with
           | Some x => saved b ++ [(href x, download x)]
           | None => saved b
           end |}
  | RevokeObjectURL u =>
      {| elements := elements b; body := body b;
         objectURLs := remove_first jsstring_eqb u (objectURLs b);
         minted := minted b; saved := saved b |}
  | RemoveChild a =>
      {| elements := elements b; body := remove_first Nat.eqb a (body b);
         objectURLs := objectURLs b; minted := minted b; saved := saved b |}
  | _ => b
  end.

(** Modelled from the spec: the provider's side of [onAuthStateChanged],
    of the function it returns, and of [logout]. *)
Definition auth_step (X : Type) (e : effect X) (p : provider) : provider :=
  match e with
  | OnAuthStateChanged cb =>
      {| observers := (issued p, cb) :: observers p;
         issued := S (issued p); logouts := logouts p |}
  | Unsubscribe s =>
      {| observers :=
           filter (fun o => negb (Nat.eqb (fst o) s)) (observers p);
         issued := issued p; logouts := logouts p |}
  | Logout =>
      {| observers := observers p; issued := issued p;
         logouts := S (logouts p) |}
  | _ => p
  end.

(** What a synchronous call returns. *)
Definition result_of (X : Type) (e : effect X) (m : machine) : X :=
  match e in effect T return T with
  | SetState _ => tt
  | ToastError _ => tt
  | ToastSuccess _ => tt
  | DateNow => clock m (ticks m)
  | CreateObjectURL _ => object_url (minted (dom m))
  | CreateElement _ => List.length (elements (dom m))
  | SetHref _ _ => tt
  | SetDownload _ _ => tt
  | AppendChild _ => tt
  | Click _ => tt
  | RevokeObjectURL _ => tt
  | RemoveChild _ => tt
  | OnAuthStateChanged _ => issued (auth m)
  | Unsubscribe _ => tt
  | Logout => tt
  end.

(** What a synchronous call does to the machine. *)
Definition effect_step (X : Type) (e : effect X) (m : machine) : machine :=
  match e with
  | SetState s => with_app (apply_setter s) m
  | DateNow => tick m
  | ToastError _ | ToastSuccess _ => m
  | OnAuthStateChanged _ | Unsubscribe _ | Logout => with_auth (auth_step e) m
  | _ => with_dom (dom_step e) m
  end.

(** What an execution lets the outside see, in order. *)
Inductive obs : Type :=
| Did (X : Type) (e : effect X) (x : X)
| Asked (X : Type) (e : awaited X)
| Settled (X : Type) (e : awaited X) (r : settled X).
Arguments Did {X} e x.
Arguments Asked {X} e.
Arguments Settled {X} e r.

(** *** One call, run to completion *)

(** The replies of the network. *)
Record world : Type := {
  generate_reply : Request.t -> settled Reply.t;
  fetch_reply : jsstring -> settled Response;
  blob_reply : Response -> settled Blob
}.

Definition reply_of (w : world) (X : Type) (e : awaited X) : settled X :=
  match e in awaited T return settled T with
  | AiGenerateImage req => generate_reply w req
  | Fetch u => fetch_reply w u
  | ResponseBlob r => blob_reply w r
  end.

Inductive completion (R : Type) : Type :=
| Normal (r : R)
| Abrupt.
Arguments Normal {R} r.
Arguments Abrupt {R}.

Record outcome (R : Type) : Type := {
  final : machine;
  trace : list obs;
  result : completion R
}.

Definition logged (R : Type) (o : obs) (r : outcome R) : outcome R :=
  {| final := final r; trace := o :: trace r; result := result r |}.

Fixpoint exec (R : Type) (w : world) (p : prog R) (m : machine) : outcome R :=
  match p with
  | Ret r => {| final := m; trace := []; result := Normal r |}
  | Throw => {| final := m; trace := []; result := Abrupt |}
  | Do e k =>
      let x := result_of e m in
      logged (Did e x) (exec w (k x) (effect_step e m))
  | Await e k =>
      let r := reply_of w e in
      logged (Asked e) (logged (Settled e r) (exec w (k r) m))
  end.

(** An outcome reached after the observations [t]. *)
Definition after (R : Type) (t : list obs) (r : outcome R) : outcome R :=
  {| final := final r; trace := t ++ trace r; result := result r |}.

(** *** Calls that interleave *)

(** A call parked at an [await]: the promise it waits for and what it
    does once the promise settles. *)
Inductive suspended (R : Type) : Type :=
| Susp (X : Type) (e : awaited X) (k : settled X -> prog R).
Arguments Susp {R X} e k.

Inductive status (R : Type) : Type :=
| Finished (r : R)
| Uncaught
| Waiting (c : suspended R).
Arguments Finished {R} r.
Arguments Uncaught {R}.
Arguments Waiting {R} c.

Record advanced (R : Type) : Type := {
  reached : machine;
  emitted : list obs;
  rest : status R
}.

Definition emitting (R : Type) (o : obs) (a : advanced R) : advanced R :=
  {| reached := reached a; emitted := o :: emitted a; rest := rest a |}.

(** Run a program up to its next [await]. *)
Fixpoint advance (R : Type) (p : prog R) (m : machine) : advanced R :=
  match p with
  | Ret r => {| reached := m; emitted := []; rest := Finished r |}
  | Throw => {| reached := m; emitted := []; rest := Uncaught |}
  | Do e k =>
      let x := result_of e m in
      emitting (Did e x) (advance (k x) (effect_step e m))
  | Await e k =>
      {| reached := m; emitted := [Asked e]; rest := Waiting (Susp e k) |}
  end.

(** The mounted component, the calls in flight, and all that happened. *)
Record system : Type := {
  mach : machine;
  pending : list (suspended unit);
  history : list obs
}.

Definition images (s : system) : list GeneratedImage.t :=
  App.generatedImages (app (mach s)).

(** Start (or continue) a handler from the current state. *)
Definition launch (before : list obs) (p : prog unit) (s : system) : system :=
  let a := advance p (mach s) in
  {| mach := reached a;
     pending :=
       match rest a with
       | Waiting c => pending s ++ [c]
       | _ => pending s
       end;
     history := history s ++ before ++ emitted a |}.

Fixpoint remove_nth (A : Type) (i : nat) (l : list A) : list A :=
  match l, i with
  | [], _ => []
  | _ :: l', O => l'
  | x :: l', S j => x :: remove_nth j l'
  end.

Definition unpark (i : nat) (s : system) : system :=
  {| mach := mach s; pending := remove_nth i (pending s);
     history := history s |}.

(** What a parked call does when its promise settles with [r], if it is
    parked on a promise of that kind. *)
Definition resume_generate (c : suspended unit) (r : settled Reply.t)
  : option (obs * prog unit) :=
  match c with
  | Susp e k =>
      match e in awaited T return (settled T -> prog unit) -> _ with
      | AiGenerateImage req =>
          fun k' => Some (Settled (AiGenerateImage req) r, k' r)
      | _ => fun _ => None
      end k
  end.

Definition resume_fetch (c : suspended unit) (r : settled Response)
  : option (obs * prog unit) :=
  match c with
  | Susp e k =>
      match e in awaited T return (settled T -> prog unit) -> _ with
      | Fetch u => fun k' => Some (Settled (Fetch u) r, k' r)
      | _ => fun _ => None
      end k
  end.

Definition resume_blob (c : suspended unit) (r : settled Blob)
  : option (obs * prog unit) :=
  match c with
  | Susp e k =>
      match e in awaited T return (settled T -> prog unit) -> _ with
      | ResponseBlob b => fun k' => Some (Settled (ResponseBlob b) r, k' r)
      | _ => fun _ => None
      end k
  end.

(** The provider calls every registered observer with the new state. *)
Definition notified (state : AuthState.t) (p : provider) : list setter :=
  flat_map (fun o => snd o state) (observers p).

Definition notify (state : AuthState.t) (s : system) : system :=
  let calls := notified state (auth (mach s)) in
  {| mach := with_app (apply_setters calls) (mach s);
     pending := pending s;
     history := history s ++ map (fun c => Did (SetState c) tt) calls |}.

(** What can happen to the mounted component.  The handlers are taken as
    callable in every state: the controls that the view disables while a
    generation is in flight only take transitions away. *)
Inductive label : Type :=
| UserTypes (value : jsstring)
| UserSelectsSize (value : jsstring)
| UserSelectsQuality (value : jsstring)
| UserClicksGenerate
| UserClicksDownload (i : nat)
| UserClicksSignOut
| ProviderNotifies (state : AuthState.t)
| GenerateSettles (i : nat) (r : settled Reply.t)
| FetchSettles (i : nat) (r : settled Response)
| BlobSettles (i : nat) (r : settled Blob).

Definition settle (i : nat) (resumed : suspended unit -> option (obs * prog unit))
  (s : system) : option system :=
  match nth_error (pending s) i with
  | Some c =>
      match resumed c with
      | Some (o, p) => Some (launch [o] p (unpark i s))
      | None => None
      end
  | None => None
  end.

Definition step (l : label) (s : system) : option system :=
  match l with
  | UserTypes v => Some (launch [] (onPromptChange v) s)
  | UserSelectsSize v => Some (launch [] (onSizeChange v) s)
  | UserSelectsQuality v => Some (launch [] (onQualityChange v) s)
  | UserClicksGenerate => Some (launch [] (generateImage (app (mach s))) s)
  | UserClicksDownload i =>
      match nth_error (images s) i with
      | Some image =>
          Some (launch []
                  (downloadImage (GeneratedImage.url image)
                     (GeneratedImage.prompt image)) s)
      | None => None
      end
  | UserClicksSignOut => Some (launch [] onSignOut s)
  | ProviderNotifies state => Some (notify state s)
  | GenerateSettles i r => settle i (fun c => resume_generate c r) s
  | FetchSettles i r => settle i (fun c => resume_fetch c r) s
  | BlobSettles i r => settle i (fun c => resume_blob c r) s
  end.

Fixpoint run (ls : list label) (s : system) : option system :=
  match ls with
  | [] => Some s
  | l :: ls' =>
      match step l s with
      | Some s' => run ls' s'
      | None => None
      end
  end.

Definition empty_browser : browser :=
  {| elements := []; body := []; objectURLs := []; minted := 0; saved := [] |}.

Definition empty_provider : provider :=
  {| observers := []; issued := 0; logouts := 0 |}.

(** The machine before the component is mounted. *)
Definition fresh_machine (clk : nat -> Z) : machine :=
  {| app := App.initial; dom := empty_browser; auth := empty_provider;
     clock := clk; ticks := 0 |}.

(** Mounting runs the effect and keeps its cleanup. *)
Definition mount (m : machine) : advanced subscription :=
  advance mountEffect m.

Definition unmount (cleanup : subscription) (m : machine) : advanced unit :=
  advance (cleanupEffect cleanup) m.

(** The component just after it is mounted. *)
Definition boot (clk : nat -> Z) : system :=
  let a := mount (fresh_machine clk) in
  {| mach := reached a; pending := []; history := emitted a |}.

(** *** Reading a history *)

(** The generation calls that succeeded: the request of each, and the
    first item of the reply it got. *)
Definition success_of (o : obs) : list (Request.t * Reply.item) :=
  match o with
  | Settled e r =>
      match e in awaited T return settled T -> _ with
      | AiGenerateImage req =>
          fun r' =>
            match r' with
            | Fulfilled reply =>
                match Reply.data reply with
                | d :: _ => [(req, d)]
                | [] => []
                end
            | Rejected => []
            end
      | _ => fun _ => []
      end r
  | _ => []
  end.

Definition successes (h : list obs) : list (Request.t * Reply.item) :=
  flat_map success_of h.

(** The requests sent to the generation endpoint. *)
Definition request_sent (o : obs) : list Request.t :=
  match o with
  | Asked e =>
      match e with
      | AiGenerateImage req => [req]
      | _ => []
      end
  | _ => []
  end.

Definition requests (h : list obs) : list Request.t :=
  flat_map request_sent h.

(** Whether anything at all was asked of the network. *)
Definition is_network (o : obs) : bool :=
  match o with
  | Asked _ => true
  | _ => false
  end.

(** The notifications shown. *)
Inductive toast : Type :=
| Error (msg : jsstring)
| Success (msg : jsstring).

Definition toast_shown (o : obs) : list toast :=
  match o with
  | Did e _ =>
      match e with
      | ToastError msg => [Error msg]
      | ToastSuccess msg => [Success msg]
      | _ => []
      end
  | _ => []
  end.

Definition toasts (h : list obs) : list toast := flat_map toast_shown h.

(** The calls to [setGenerating]. *)
Definition flag_set (o : obs) : list bool :=
  match o with
  | Did e _ =>
      match e with
      | SetState (setGenerating b) => [b]
      | _ => []
      end
  | _ => []
  end.

(** What an image and the call it came from have in common. *)
Definition image_core (g : GeneratedImage.t)
  : jsstring * jsstring * jsstring * jsstring :=
  (GeneratedImage.url g, GeneratedImage.prompt g,
   GeneratedImage.size g, GeneratedImage.quality g).

Definition call_core (c : Request.t * Reply.item)
  : jsstring * jsstring * jsstring * jsstring :=
  (Reply.url (snd c), Request.prompt (fst c),
   Request.size (fst c), Request.quality (fst c)).

(** *** What parked calls may still do *)

(** A step that leaves the images and the registered observers alone. *)
Definition quiet (R : Type) (a : advanced R) (m : machine) : Prop :=
  App.generatedImages (app (reached a)) = App.generatedImages (app m)
  /\ observers (auth (reached a)) = observers (auth m).

(** A call parked on the generation request [req]: once the reply is in
    it runs to its end, and it adds an image exactly when the reply is a
    success, the image of that request and that reply. *)
Definition generate_resumes (req : Request.t)
  (k : settled Reply.t -> prog unit) : Prop :=
  forall r m,
    let a := advance (k r) m in
    rest a = Finished tt
    /\ observers (auth (reached a)) = observers (auth m)
    /\ match success_of (Settled (AiGenerateImage req) r) with
       | c :: _ =>
           exists g,
             App.generatedImages (app (reached a))
             = g :: App.generatedImages (app m)
             /\ image_core g = call_core c
       | [] =>
           App.generatedImages (app (reached a))
           = App.generatedImages (app m)
       end.

Definition blob_resumes (k : settled Blob -> prog unit) : Prop :=
  forall r m,
    let a := advance (k r) m in
    quiet a m /\ rest a = Finished tt.

Definition fetch_resumes (k : settled Response -> prog unit) : Prop :=
  forall r m,
    let a := advance (k r) m in
    quiet a m
    /\ match rest a with
       | Finished _ => True
       | Uncaught => False
       | Waiting (Susp e k') =>
           match e in awaited T return (settled T -> prog unit) -> Prop with
           | ResponseBlob _ => blob_resumes
           | _ => fun _ => False
           end k'
       end.

Definition parked_ok (c : suspended unit) : Prop :=
  match c with
  | Susp e k =>
      match e in awaited T return (settled T -> prog unit) -> Prop with
      | AiGenerateImage req => generate_resumes req
      | Fetch _ => fetch_resumes
      | ResponseBlob _ => blob_resumes
      end k
  end.

(** What holds of the mounted component whatever happens to it. *)
Definition invariant (s : system) : Prop :=
  Forall parked_ok (pending s)
  /\ map image_core (images s) = rev (map call_core (successes (history s)))
  /\ observers (auth (mach s)) = [(0, authObserver)].

(** A step that adds no image and records no successful call. *)
Definition adds_nothing (s s' : system) : Prop :=
  images s' = images s
  /\ successes (history s') = successes (history s).

(** A step that records one successful call, whose reply starts with
    [first], and puts the image of that call in front of the others. *)
Definition adds_image_of (first : Reply.item) (s s' : system) : Prop :=
  exists g req,
    images s' = g :: images s
    /\ successes (history s') = successes (history s) ++ [(req, first)]
    /\ image_core g = call_core (req, first).

(** The image that a call made in state [st] builds from the first item
    of its reply and two readings of the clock. *)
Definition image_built (st : App.state) (first : Reply.item) (t_id t_ts : Z)
  : GeneratedImage.t :=
  {| GeneratedImage.id := toString t_id;
     GeneratedImage.url := Reply.url first;
     GeneratedImage.prompt := trim (App.prompt st);
     GeneratedImage.timestamp := t_ts;
     GeneratedImage.size := App.size st;
     GeneratedImage.quality := App.quality st |}.

(** ** What [App] renders *)

(** The tree that [App] returns, without what only styles or animates it
    (class names, icons, transitions): the conditions that pick what is
    shown, and the properties of the controls that carry state or a
    handler. *)
Module View.

(** The form: the prompt field, the two selects and the button. *)
Record form : Type := make_form {
  textarea_value : jsstring;
  textarea_disabled : bool;
  size_value : jsstring;
  size_options : list jsstring;
  size_disabled : bool;
  quality_value : jsstring;
  quality_options : list jsstring;
  quality_disabled : bool;
  button_disabled : bool;
  button_label : jsstring
}.

(** One card of the gallery. *)
Record card : Type := make_card {
  key : jsstring;
  position : nat;                  (* its index, which delays its entrance *)
  img_src : jsstring;
  img_alt : jsstring;
  onDownload : prog unit;          (* the [onClick] of its button *)
  caption : jsstring;
  size_badge : jsstring;
  quality_badge : jsstring;
  dated : Z                        (* the time value its date is printed from *)
}.

Record gallery : Type := make_gallery {
  count_badge : nat;
  cards : list card
}.

Inductive t : Type :=
| LoadingScreen
| Page (welcome : option jsstring)  (* the greeting and the sign-out button *)
       (controls : form)
       (creations : option gallery)
       (empty_state : bool).

End View.

Definition size_choices : list jsstring :=
  [lit "1024x1024"; lit "1024x1792"; lit "1792x1024"].

Definition quality_choices : list jsstring :=
  [lit "auto"; lit "low"; lit "medium"; lit "high"].

Fixpoint cards_from (index : nat) (l : list GeneratedImage.t) : list View.card :=
  match l with
  | [] => []
  | image :: l' =>
      {| View.key := GeneratedImage.id image;
         View.position := index;
         View.img_src := GeneratedImage.url image;
         View.img_alt := GeneratedImage.prompt image;
         View.onDownload :=
           downloadImage (GeneratedImage.url image) (GeneratedImage.prompt image);
         View.caption := GeneratedImage.prompt image;
         View.size_badge := GeneratedImage.size image;
         View.quality_badge := GeneratedImage.quality image;
         View.dated := GeneratedImage.timestamp image |}
      :: cards_from (S index) l'
  end.

(** The [return] of [App]. *)
Definition render (st : App.state) : View.t :=
  if App.loading st then View.LoadingScreen
  else
    View.Page
      (match App.user st with
       | Some u => Some (User.email u)
       | None => None
       end)
      {| View.textarea_value := App.prompt st;
         View.textarea_disabled := App.generating st;
         View.size_value := App.size st;
         View.size_options := size_choices;
         View.size_disabled := App.generating st;
         View.quality_value := App.quality st;
         View.quality_options := quality_choices;
         View.quality_disabled := App.generating st;
         View.button_disabled :=
           App.generating st || negb (truthy (trim (App.prompt st)));
         View.button_label :=
           if App.generating st then lit "Generating..."
           else lit "Generate Image" |}
      (if 0 <? List.length (App.generatedImages st) then
         Some {| View.count_badge := List.length (App.generatedImages st);
                 View.cards := cards_from 0 (App.generatedImages st) |}
       else None)
      ((List.length (App.generatedImages st) =? 0)
       && negb (App.generating st)).

(** ** The handlers, cut at their awaits *)

Definition settled_value (X : Type) (r : settled X) : prog X :=
  match r with
  | Fulfilled x => Ret x
  | Rejected => Throw
  end.

(** [generateImage_try] after its [await]. *)
Definition generateImage_rest (st : App.state) (reply : Reply.t) : prog unit :=
  let data := Reply.data reply in
  now_id <- perform DateNow ;;
  first <- first_item data ;;
  now_ts <- perform DateNow ;;
  let newImage :=
    {| GeneratedImage.id := toString now_id;
       GeneratedImage.url := Reply.url first;
       GeneratedImage.prompt := trim (App.prompt st);
       GeneratedImage.timestamp := now_ts;
       GeneratedImage.size := App.size st;
       GeneratedImage.quality := App.quality st |} in
  perform (SetState (setGeneratedImages (fun prev => newImage :: prev))) ;;
  perform (ToastSuccess msg_generated).

(** What a call of [generateImage] made in state [st] does once its
    request has settled. *)
Definition generate_after (st : App.state) (r : settled Reply.t) : prog unit :=
  try_finally
    (try_catch (bind_prog (settled_value r) (generateImage_rest st))
       (perform (ToastError msg_generate_failed)))
    (perform (SetState (setGenerating false))).

Definition parked_generate (st : App.state) : suspended unit :=
  Susp (AiGenerateImage (request_of st)) (generate_after st).

(** [downloadImage] after its second [await]. *)
Definition download_rest (prompt : jsstring) (blob : Blob) : prog unit :=
  url <- perform (CreateObjectURL blob) ;;
  a <- perform (CreateElement (lit "a")) ;;
  perform (SetHref a url) ;;
  perform (SetDownload a (download_name prompt)) ;;
  perform (AppendChild a) ;;
  perform (Click a) ;;
  perform (RevokeObjectURL url) ;;
  perform (RemoveChild a) ;;
  perform (ToastSuccess msg_downloaded).

Definition blob_after (prompt : jsstring) (r : settled Blob) : prog unit :=
  try_catch (bind_prog (settled_value r) (download_rest prompt))
    (perform (ToastError msg_download_failed)).

Definition parked_blob (prompt : jsstring) (response : Response)
  : suspended unit :=
  Susp (ResponseBlob response) (blob_after prompt).

Definition fetch_after (prompt : jsstring) (r : settled Response) : prog unit :=
  try_catch
    (bind_prog (settled_value r)
       (fun response =>
          bind_prog (await (ResponseBlob response)) (download_rest prompt)))
    (perform (ToastError msg_download_failed)).

Definition parked_fetch (imageUrl prompt : jsstring) : suspended unit :=
  Susp (Fetch imageUrl) (fetch_after prompt).

(** The calls that can be parked: those of the two handlers. *)
Inductive shaped : suspended unit -> Prop :=
| shaped_generate (st : App.state) :
    truthy (trim (App.prompt st)) = true -> shaped (parked_generate st)
| shaped_fetch (imageUrl prompt : jsstring) :
    shaped (parked_fetch imageUrl prompt)
| shaped_blob (prompt : jsstring) (response : Response) :
    shaped (parked_blob prompt response).

(** A state of the mounted component as the runs below keep it. *)
Definition steady (clk : nat -> Z) (s : system) : Prop :=
  Forall shaped (pending s)
  /\ observers (auth (mach s)) = [(0, authObserver)]
  /\ clock (mach s) = clk.

(** ** Steps, spelled out *)

Definition moved (f : machine -> machine)
  (parked : list (suspended unit) -> list (suspended unit))
  (news : list obs) (s : system) : system :=
  {| mach := f (mach s);
     pending := parked (pending s);
     history := history s ++ news |}.

Definition kept (A : Type) (x : A) : A := x.

(** What each step does to a steady state. *)
Inductive happened : label -> system -> system -> Prop :=
| h_typed (v : jsstring) (s : system) :
    happened (UserTypes v) s
      (moved (with_app (apply_setter (setPrompt v))) (@kept _)
         [Did (SetState (setPrompt v)) tt] s)
| h_size (v : jsstring) (s : system) :
    happened (UserSelectsSize v) s
      (moved (with_app (apply_setter (setSize v))) (@kept _)
         [Did (SetState (setSize v)) tt] s)
| h_quality (v : jsstring) (s : system) :
    happened (UserSelectsQuality v) s
      (moved (with_app (apply_setter (setQuality v))) (@kept _)
         [Did (SetState (setQuality v)) tt] s)
| h_refused (s : system) :
    truthy (trim (App.prompt (app (mach s)))) = false ->
    happened UserClicksGenerate s
      (moved (@kept _) (@kept _) [Did (ToastError msg_enter_prompt) tt] s)
| h_asked (s : system) :
    truthy (trim (App.prompt (app (mach s)))) = true ->
    happened UserClicksGenerate s
      (moved (with_app (apply_setter (setGenerating true)))
         (fun l => l ++ [parked_generate (app (mach s))])
         [ Did (SetState (setGenerating true)) tt;
           Asked (AiGenerateImage (request_of (app (mach s)))) ] s)
| h_download (i : nat) (image : GeneratedImage.t) (s : system) :
    nth_error (images s) i = Some image ->
    happened (UserClicksDownload i) s
      (moved (@kept _)
         (fun l =>
            l ++ [parked_fetch (GeneratedImage.url image)
                    (GeneratedImage.prompt image)])
         [Asked (Fetch (GeneratedImage.url image))] s)
| h_signed_out (s : system) :
    happened UserClicksSignOut s
      (moved (with_auth (auth_step Logout)) (@kept _) [Did Logout tt] s)
| h_notified (state : AuthState.t) (s : system) :
    happened (ProviderNotifies state) s
      (moved (with_app (apply_setters (authObserver state))) (@kept _)
         [ Did (SetState (setUser (AuthState.user state))) tt;
           Did (SetState (setLoading (AuthState.isLoading state))) tt ] s)
| h_generate_rejected (i : nat) (st : App.state) (s : system) :
    nth_error (pending s) i = Some (parked_generate st) ->
    happened (GenerateSettles i Rejected) s
      (moved (with_app (apply_setter (setGenerating false))) (remove_nth i)
         [ Settled (AiGenerateImage (request_of st)) Rejected;
           Did (ToastError msg_generate_failed) tt;
           Did (SetState (setGenerating false)) tt ] s)
| h_generate_empty (i : nat) (st : App.state) (reply : Reply.t) (s : system) :
    nth_error (pending s) i = Some (parked_generate st) ->
    Reply.data reply = [] ->
    happened (GenerateSettles i (Fulfilled reply)) s
      (moved (fun m => with_app (apply_setter (setGenerating false)) (tick m))
         (remove_nth i)
         [ Settled (AiGenerateImage (request_of st)) (Fulfilled reply);
           Did DateNow (clock (mach s) (ticks (mach s)));
           Did (ToastError msg_generate_failed) tt;
           Did (SetState (setGenerating false)) tt ] s)
| h_generate_added (i : nat) (st : App.state) (reply : Reply.t)
    (first : Reply.item) (others : list Reply.item) (s : system) :
    nth_error (pending s) i = Some (parked_generate st) ->
    Reply.data reply = first :: others ->
    let t_id := clock (mach s) (ticks (mach s)) in
    let t_ts := clock (mach s) (S (ticks (mach s))) in
    let prepend :=
      setGeneratedImages (fun prev => image_built st first t_id t_ts :: prev) in
    happened (GenerateSettles i (Fulfilled reply)) s
      (moved
         (fun m =>
            with_app (apply_setter (setGenerating false))
              (with_app (apply_setter prepend) (tick (tick m))))
         (remove_nth i)
         [ Settled (AiGenerateImage (request_of st)) (Fulfilled reply);
           Did DateNow t_id;
           Did DateNow t_ts;
           Did (SetState prepend) tt;
           Did (ToastSuccess msg_generated) tt;
           Did (SetState (setGenerating false)) tt ] s)
| h_fetch_rejected (i : nat) (u p : jsstring) (s : system) :
    nth_error (pending s) i = Some (parked_fetch u p) ->
    happened (FetchSettles i Rejected) s
      (moved (@kept _) (remove_nth i)
         [ Settled (Fetch u) Rejected;
           Did (ToastError msg_download_failed) tt ] s)
| h_fetch_fulfilled (i : nat) (u p : jsstring) (response : Response)
    (s : system) :
    nth_error (pending s) i = Some (parked_fetch u p) ->
    happened (FetchSettles i (Fulfilled response)) s
      (moved (@kept _) (fun l => remove_nth i l ++ [parked_blob p response])
         [ Settled (Fetch u) (Fulfilled response);
           Asked (ResponseBlob response) ] s)
| h_blob_rejected (i : nat) (p : jsstring) (response : Response) (s : system) :
    nth_error (pending s) i = Some (parked_blob p response) ->
    happened (BlobSettles i Rejected) s
      (moved (@kept _) (remove_nth i)
         [ Settled (ResponseBlob response) Rejected;
           Did (ToastError msg_download_failed) tt ] s)
| h_blob_fulfilled (i : nat) (p : jsstring) (response : Response)
    (blob : Blob) (s : system) :
    nth_error (pending s) i = Some (parked_blob p response) ->
    happened (BlobSettles i (Fulfilled blob)) s
      (moved (fun m => reached (advance (download_rest p blob) m))
         (remove_nth i)
         (Settled (ResponseBlob response) (Fulfilled blob)
          :: emitted (advance (download_rest p blob) (mach s))) s).

(** ** Runs driven through the view *)

(** Whether the view lets a step happen.  What the provider and the
    network do is never held back; what the user does needs the control
    to be on the page and not disabled. *)
Definition ui_enabled (l : label) (s : system) : bool :=
  match l with
  | ProviderNotifies _ | GenerateSettles _ _ | FetchSettles _ _
  | BlobSettles _ _ => true
  | _ =>
      match render (app (mach s)) with
      | View.LoadingScreen => false
      | View.Page welcome controls creations _ =>
          match l with
          | UserTypes _ => negb (View.textarea_disabled controls)
          | UserSelectsSize v =>
              negb (View.size_disabled controls)
              && existsb (jsstring_eqb v) (View.size_options controls)
          | UserSelectsQuality v =>
              negb (View.quality_disabled controls)
              && existsb (jsstring_eqb v) (View.quality_options controls)
          | UserClicksGenerate => negb (View.button_disabled controls)
          | UserClicksDownload i =>
              match creations with
              | Some g => i <? List.length (View.cards g)
              | None => false
              end
          | UserClicksSignOut =>
              match welcome with
              | Some _ => true
              | None => false
              end
          | _ => true
          end
      end
  end.

Definition ui_step (l : label) (s : system) : option system :=
  if ui_enabled l s then step l s else None.

Fixpoint ui_run (ls : list label) (s : system) : option system :=
  match ls with
  | [] => Some s
  | l :: ls' =>
      match ui_step l s with
      | Some s' => ui_run ls' s'
      | None => None
      end
  end.

(** The generation calls among the parked ones. *)
Definition is_generate (c : suspended unit) : bool :=
  match c with
  | Susp e _ =>
      match e with
      | AiGenerateImage _ => true
      | _ => false
      end
  end.

Definition in_flight (s : system) : nat :=
  List.length (filter is_generate (pending s)).

(** A parked generation call whose request is the one that the state
    [st] would send. *)
Definition asks_for (st : App.state) (c : suspended unit) : Prop :=
  match c with
  | Susp e _ =>
      match e with
      | AiGenerateImage req => req = request_of st
      | _ => True
      end
  end.

(** What the runs through the view keep: the flag is up exactly while one
    generation is parked, and none is parked otherwise; a parked
    generation asks for what the form now holds; the size and the quality
    are among the choices of the selects, in the form and in every
    request sent; and the prompt was never refused. *)
Definition offered (req : Request.t) : Prop :=
  In (Request.size req) size_choices
  /\ In (Request.quality req) quality_choices.

Definition orderly (s : system) : Prop :=
  in_flight s = (if App.generating (app (mach s)) then 1 else 0)
  /\ Forall (asks_for (app (mach s))) (pending s)
  /\ offered (request_of (app (mach s)))
  /\ ~ In (Error msg_enter_prompt) (toasts (history s))
  /\ Forall offered (requests (history s)).

(** ** Reading a list of steps *)

(** The last value of each kind that the user or the provider gave, from
    the values [st] holds. *)
Definition input (st : App.state) (l : label) : App.state :=
  match l with
  | UserTypes v => apply_setter (setPrompt v) st
  | UserSelectsSize v => apply_setter (setSize v) st
  | UserSelectsQuality v => apply_setter (setQuality v) st
  | ProviderNotifies state => apply_setters (authObserver state) st
  | _ => st
  end.

Definition inputs (ls : list label) (st : App.state) : App.state :=
  fold_left input ls st.

(** The five cells of the state that the inputs set. *)
Definition form_of (st : App.state)
  : option User.t * bool * jsstring * jsstring * jsstring :=
  (App.user st, App.loading st, App.prompt st, App.size st, App.quality st).

(** A request as [generateImage] makes them. *)
Definition well_formed (req : Request.t) : Prop :=
  truthy (Request.prompt req) = true
  /\ trim (Request.prompt req) = Request.prompt req
  /\ Request.n req = 1%Z.

(** The readings of the clock that the images were built from, newest
    first: each image has the text of one reading for identifier and the
    reading after it for time. *)
Definition built_at (clk : nat -> Z) (ks : list nat)
  (l : list GeneratedImage.t) : Prop :=
  map GeneratedImage.id l = map (fun k => toString (clk k)) ks
  /\ map GeneratedImage.timestamp l = map (fun k => clk (S k)) ks.

(** A clock that never gives the same value twice, nor goes back. *)
Definition advancing (clk : nat -> Z) : Prop :=
  forall a b, a < b -> (clk a < clk b)%Z.

(** *** Shapes of strings *)

(** A string that does not begin with white space. *)
Definition starts_clean (s : jsstring) : Prop :=
  match s with
  | c :: _ => is_white_space c = false
  | [] => True
  end.

(** A string that does not end with white space. *)
Definition ends_clean (s : jsstring) : Prop := starts_clean (rev s).

(** A string of white space only. *)
Definition blank (s : jsstring) : bool := forallb is_white_space s.

(** The code units a file name made by [download_name] can hold:
    [a-zA-Z0-9], the hyphen and the full stop. *)
Definition is_name_char (c : char16) : bool :=
  (is_alnum c || (c =? 45) || (c =? 46))%N.

(** Concrete inputs for the examples. *)
Definition fox_state : App.state :=
  apply_setter (setPrompt (lit "  a red fox ")) App.initial.

Definition fox_machine : machine :=
  {| app := fox_state; dom := empty_browser; auth := empty_provider;
     clock := fun n => (1700000000000 + Z.of_nat n)%Z; ticks := 0 |}.

Definition blank_machine : machine :=
  with_app (apply_setter (setPrompt (lit "   "))) fox_machine.

Definition one_image : Reply.t :=
  {| Reply.data := [ {| Reply.url := lit "https://cdn.example/fox.png" |} ] |}.

Definition no_image : Reply.t := {| Reply.data := [] |}.

Definition world_of (g : settled Reply.t) (f : settled Response)
  (b : settled Blob) : world :=
  {| generate_reply := fun _ => g;
     fetch_reply := fun _ => f;
     blob_reply := fun _ => b |}.

Definition good_world : world :=
  world_of (Fulfilled one_image) (Fulfilled {| response_id := 0 |})
    (Fulfilled {| blob_id := 0 |}).

Definition down_world : world := world_of Rejected Rejected Rejected.

Definition empty_world : world :=
  world_of (Fulfilled no_image) (Fulfilled {| response_id := 0 |}) Rejected.

Definition long_prompt : jsstring :=
  lit "A majestic mountain, at sunset: snow & lake!".

(** A session: a generation that succeeds, one that is refused, a
    download, and a notification from the provider. *)
Definition demo_clock (n : nat) : Z := (1700000000000 + Z.of_nat n)%Z.

Definition signed_in : AuthState.t :=
  {| AuthState.user := Some {| User.email := lit "fox@example.org" |};
     AuthState.isLoading := false |}.

Definition demo_run : list label :=
  [ UserTypes (lit "  a red fox ");
    UserClicksGenerate;
    GenerateSettles 0 (Fulfilled one_image);
    UserClicksGenerate;
    GenerateSettles 0 Rejected;
    UserClicksDownload 0;
    ProviderNotifies signed_in ].

(** The session, followed by a third generation, which succeeds. *)
Definition longer_run : list label :=
  demo_run ++ [UserClicksGenerate; GenerateSettles 1 (Fulfilled one_image)].

(** A clock that gives one more millisecond at each reading. *)
Definition wall_clock (n : nat) : Z := (Z.of_nat n + 1700000000000)%Z.

(** Where the two sessions end under that clock. *)
Definition demo_end : system :=
  match run demo_run (boot wall_clock) with
  | Some s => s
  | None => boot wall_clock
  end.

Definition longer_end : system :=
  match run longer_run (boot wall_clock) with
  | Some s => s
  | None => boot wall_clock
  end.

(** A session through the view: the provider signs the user in, the user
    types a prompt and asks for an image. *)
Definition view_run : list label :=
  [ ProviderNotifies signed_in;
    UserTypes (lit "  a red fox ");
    UserClicksGenerate ].

Definition view_parked : system :=
  match ui_run view_run (boot wall_clock) with
  | Some s => s
  | None => boot wall_clock
  end.

Definition view_settled : system :=
  match step (GenerateSettles 0 (Fulfilled one_image)) view_parked with
  | Some s => s
  | None => view_parked
  end.

(** A machine on which the page, not the loading screen, is rendered. *)
Definition ready_machine : machine :=
  with_app (apply_setters (authObserver signed_in)) fox_machine.

(** A provider with which one component is already registered. *)
Definition mounted_machine : machine :=
  reached (mount (fresh_machine wall_clock)).

(** ** The life of the component *)

(** The component just after it is mounted on the machine [m0], whatever
    the provider of [m0] already holds. *)
Definition start (m0 : machine) : system :=
  let a := mount m0 in
  {| mach := reached a; pending := []; history := emitted a |}.

(** Tearing down: React calls what the effect returned, if it returned. *)
Definition teardown (a : advanced subscription) (m : machine)
  : option (advanced unit) :=
  match rest a with
  | Finished cleanup => Some (unmount cleanup m)
  | _ => None
  end.

(** Observers that belong to other components: they set nothing of this
    one. *)
Definition foreign (o : subscription * (AuthState.t -> list setter)) : Prop :=
  forall state, snd o state = [].

(** A handle that the provider has not given yet. *)
Definition unused (h : subscription)
  (o : subscription * (AuthState.t -> list setter)) : Prop :=
  fst o <> h.

(** A machine whose provider already has an observer, of another
    component, and the session run on it. *)
Definition shared_machine : machine :=
  {| app := App.initial;
     dom := empty_browser;
     auth := {| observers := [(0, fun _ => [])]; issued := 1; logouts := 0 |};
     clock := wall_clock;
     ticks := 0 |}.

Definition shared_end : system :=
  match run demo_run (start shared_machine) with
  | Some s => s
  | None => start shared_machine
  end.

Arguments lit : simpl never.
Arguments trim : simpl never.
Arguments toString : simpl never.
Arguments object_url : simpl never.

(** * Properties *)

(** ** Strings *)

Example trim_example : trim (lit "  a red fox ") = lit "a red fox".
Proof. reflexivity. Qed.

Example trim_blank : trim (lit "   ") = [].
Proof. reflexivity. Qed.

Example trim_inner_space_kept : trim (lit " a  b ") = lit "a  b".
Proof. reflexivity. Qed.

Example toString_example : toString 1700000000123 = lit "1700000000123".
Proof. reflexivity. Qed.

Example download_name_example :
  download_name long_prompt
  = lit "ai-generated-A-majestic-mountain--at-sunset.png".
Proof. reflexivity. Qed.

Lemma lit_nonempty (s : string) : s <> EmptyString -> lit s <> [].
Proof.
  destruct s as [|c s]; [congruence | discriminate].
Qed.

Lemma string_of_uint_nonempty (d : Decimal.uint) :
  NilZero.string_of_uint d <> EmptyString.
Proof.
  destruct d; discriminate.
Qed.

(** The text of a number is never empty. *)
Lemma toString_nonempty (n : Z) : toString n <> [].
Proof.
  unfold toString. apply lit_nonempty.
  destruct (Z.to_int n) as [d|d]; cbn.
  - apply string_of_uint_nonempty.
  - discriminate.
Qed.

Lemma replace_non_alnum_length (s : jsstring) :
  List.length (replace_non_alnum s) = List.length s.
Proof. apply length_map. Qed.

Lemma replace_non_alnum_nth (s : jsstring) (i : nat) (c : char16) :
  nth_error s i = Some c ->
  nth_error (replace_non_alnum s) i = Some (if is_alnum c then c else hyphen).
Proof.
  intros H. unfold replace_non_alnum.
  rewrite nth_error_map, H. reflexivity.
Qed.

Lemma slice0_nth (n i : nat) (s : jsstring) :
  i < n -> nth_error (slice0 n s) i = nth_error s i.
Proof.
  unfold slice0. revert i s.
  induction n as [|n IH]; intros i s Hi; [lia|].
  destruct s as [|c s]; [reflexivity|].
  destruct i as [|i]; [reflexivity|].
  cbn. apply IH. lia.
Qed.

Lemma slice0_length (n : nat) (s : jsstring) :
  List.length (slice0 n s) = Nat.min n (List.length s).
Proof. apply length_firstn. Qed.

(** ** The two semantics agree *)

(** Running to completion is running up to the next [await], taking the
    reply of the world, and running on. *)
Lemma exec_advance (R : Type) (w : world) (p : prog R) (m : machine) :
  let a := advance p m in
  match rest a with
  | Finished r =>
      exec w p m
      = {| final := reached a; trace := emitted a; result := Normal r |}
  | Uncaught =>
      exec w p m
      = {| final := reached a; trace := emitted a; result := Abrupt |}
  | Waiting (Susp e k) =>
      exec w p m
      = after (emitted a)
          (logged (Settled e (reply_of w e))
             (exec w (k (reply_of w e)) (reached a)))
  end.
Proof.
  revert m. induction p as [r| |X e k IH|X e k IH]; intros m; cbn;
    try reflexivity.
  specialize (IH (result_of e m) (effect_step e m)). cbn in IH.
  destruct (rest (advance (k (result_of e m)) (effect_step e m)))
    as [r| |[Y e' k']]; cbn; now rewrite IH.
Qed.

(** ** One call of [generateImage], run to completion *)

Section OneCall.

Variable w : world.
Variable m : machine.

Let st := app m.
Let raised := with_app (apply_setter (setGenerating true)) m.
Let lowered (m' : machine) := with_app (apply_setter (setGenerating false)) m'.
Let asked := Asked (AiGenerateImage (request_of st)).

(** A blank prompt: one notification and nothing else. *)
Lemma exec_generate_blank :
  truthy (trim (App.prompt st)) = false ->
  exec w (generateImage st) m
  = {| final := m;
       trace := [Did (ToastError msg_enter_prompt) tt];
       result := Normal tt |}.
Proof.
  intros Hblank. unfold generateImage. rewrite Hblank. reflexivity.
Qed.

(** The request is refused. *)
Lemma exec_generate_rejected :
  truthy (trim (App.prompt st)) = true ->
  generate_reply w (request_of st) = Rejected ->
  exec w (generateImage st) m
  = {| final := lowered raised;
       trace :=
         [ Did (SetState (setGenerating true)) tt;
           asked;
           Settled (AiGenerateImage (request_of st)) Rejected;
           Did (ToastError msg_generate_failed) tt;
           Did (SetState (setGenerating false)) tt ];
       result := Normal tt |}.
Proof.
  intros Hprompt Hreply. unfold generateImage. rewrite Hprompt.
  cbn. rewrite Hreply. reflexivity.
Qed.

(** The request is answered with no item. *)
Lemma exec_generate_empty (reply : Reply.t) :
  truthy (trim (App.prompt st)) = true ->
  generate_reply w (request_of st) = Fulfilled reply ->
  Reply.data reply = [] ->
  exec w (generateImage st) m
  = {| final := lowered (tick raised);
       trace :=
         [ Did (SetState (setGenerating true)) tt;
           asked;
           Settled (AiGenerateImage (request_of st)) (Fulfilled reply);
           Did DateNow (clock m (ticks m));
           Did (ToastError msg_generate_failed) tt;
           Did (SetState (setGenerating false)) tt ];
       result := Normal tt |}.
Proof.
  intros Hprompt Hreply Hdata. unfold generateImage. rewrite Hprompt.
  cbn. rewrite Hreply. cbn. rewrite Hdata. reflexivity.
Qed.

(** The request is answered with at least one item. *)
Lemma exec_generate_success (reply : Reply.t) (first : Reply.item)
  (others : list Reply.item) :
  truthy (trim (App.prompt st)) = true ->
  generate_reply w (request_of st) = Fulfilled reply ->
  Reply.data reply = first :: others ->
  let newImage :=
    image_built st first (clock m (ticks m)) (clock m (S (ticks m))) in
  let prepend := setGeneratedImages (fun prev => newImage :: prev) in
  exec w (generateImage st) m
  = {| final :=
         lowered (with_app (apply_setter prepend) (tick (tick raised)));
       trace :=
         [ Did (SetState (setGenerating true)) tt;
           asked;
           Settled (AiGenerateImage (request_of st)) (Fulfilled reply);
           Did DateNow (clock m (ticks m));
           Did DateNow (clock m (S (ticks m)));
           Did (SetState prepend) tt;
           Did (ToastSuccess msg_generated) tt;
           Did (SetState (setGenerating false)) tt ];
       result := Normal tt |}.
Proof.
  intros Hprompt Hreply Hdata. unfold generateImage. rewrite Hprompt.
  cbn. rewrite Hreply. cbn. rewrite Hdata. reflexivity.
Qed.

(** The four lemmas above cover every call. *)
Lemma generate_cases :
  truthy (trim (App.prompt st)) = false
  \/ truthy (trim (App.prompt st)) = true
     /\ (generate_reply w (request_of st) = Rejected
         \/ exists reply,
              generate_reply w (request_of st) = Fulfilled reply
              /\ (Reply.data reply = []
                  \/ exists first others,
                       Reply.data reply = first :: others)).
Proof.
  destruct (truthy (trim (App.prompt st))); [right; split; [reflexivity|] | now left].
  destruct (generate_reply w (request_of st)) as [reply|]; [right | now left].
  exists reply. split; [reflexivity|].
  destruct (Reply.data reply) as [|first others]; [now left | right; eauto].
Qed.

End OneCall.

(** ** The contract of [generateImage] *)

(** C1.  With a prompt that is not blank and a reply that has at least one
    item, the call puts exactly one new image in front of the images: the
    list grows by one; the image has for identifier the text of the time
    read first, which is not empty, the URL of the first item, the trimmed
    prompt, the time read second, and the size and quality selected when
    the call was made.  The success notification is the one shown. *)
Theorem generate_success_prepends_one
  (w : world) (m : machine) (reply : Reply.t) (first : Reply.item)
  (others : list Reply.item) :
  truthy (trim (App.prompt (app m))) = true ->
  generate_reply w (request_of (app m)) = Fulfilled reply ->
  Reply.data reply = first :: others ->
  let r := exec w (generateImage (app m)) m in
  let before := App.generatedImages (app m) in
  let after := App.generatedImages (app (final r)) in
  exists newImage,
    after = newImage :: before
    /\ List.length after = S (List.length before)
    /\ GeneratedImage.id newImage = toString (clock m (ticks m))
    /\ GeneratedImage.id newImage <> []
    /\ GeneratedImage.url newImage = Reply.url first
    /\ GeneratedImage.prompt newImage = trim (App.prompt (app m))
    /\ GeneratedImage.timestamp newImage = clock m (S (ticks m))
    /\ GeneratedImage.size newImage = App.size (app m)
    /\ GeneratedImage.quality newImage = App.quality (app m)
    /\ toasts (trace r) = [Success msg_generated]
    /\ result r = Normal tt.
Proof.
  intros Hprompt Hreply Hdata r before after. subst r before after.
  rewrite (exec_generate_success w m Hprompt Hreply Hdata).
  eexists. split; [reflexivity|].
  repeat split; try reflexivity.
  apply toString_nonempty.
Qed.

Lemma generate_success_prepends_one_witness :
  exists newImage,
    App.generatedImages
      (app (final (exec good_world (generateImage fox_state) fox_machine)))
    = [newImage]
    /\ GeneratedImage.id newImage = lit "1700000000000"
    /\ GeneratedImage.prompt newImage = lit "a red fox"
    /\ GeneratedImage.size newImage = lit "1024x1024"
    /\ GeneratedImage.quality newImage = lit "high".
Proof.
  destruct (generate_success_prepends_one good_world fox_machine
              (reply := one_image) eq_refl eq_refl eq_refl)
    as [g [Hg [_ [Hid [_ [_ [Hp [_ [Hs [Hq _]]]]]]]]]].
  exists g. repeat split; assumption.
Defined.

(** C2.  With a prompt that is not blank, when the request fails the call
    shows the failure notification and leaves the images as they were. *)
Theorem generate_failure_keeps_images (w : world) (m : machine) :
  truthy (trim (App.prompt (app m))) = true ->
  generate_reply w (request_of (app m)) = Rejected ->
  let r := exec w (generateImage (app m)) m in
  toasts (trace r) = [Error msg_generate_failed]
  /\ App.generatedImages (app (final r)) = App.generatedImages (app m)
  /\ result r = Normal tt.
Proof.
  intros Hprompt Hreply r. subst r.
  rewrite (exec_generate_rejected w m Hprompt Hreply).
  repeat split.
Qed.

Lemma generate_failure_keeps_images_witness :
  toasts (trace (exec down_world (generateImage fox_state) fox_machine))
  = [Error msg_generate_failed]
  /\ App.generatedImages
       (app (final (exec down_world (generateImage fox_state) fox_machine)))
     = []
  /\ result (exec down_world (generateImage fox_state) fox_machine)
     = Normal tt.
Proof.
  exact (generate_failure_keeps_images down_world fox_machine eq_refl eq_refl).
Defined.

(** C3.  With a prompt that is blank once trimmed, the call asks nothing
    of the network, changes nothing (the images and the in-flight flag
    among the rest), and shows the notification that asks for a prompt. *)
Theorem generate_blank_prompt (w : world) (m : machine) :
  truthy (trim (App.prompt (app m))) = false ->
  let r := exec w (generateImage (app m)) m in
  filter is_network (trace r) = []
  /\ requests (trace r) = []
  /\ App.generatedImages (app (final r)) = App.generatedImages (app m)
  /\ App.generating (app (final r)) = App.generating (app m)
  /\ final r = m
  /\ toasts (trace r) = [Error msg_enter_prompt].
Proof.
  intros Hblank r. subst r.
  rewrite (exec_generate_blank w m Hblank).
  repeat split.
Qed.

Lemma generate_blank_prompt_witness :
  requests (trace (exec good_world (generateImage (app blank_machine))
                     blank_machine)) = []
  /\ final (exec good_world (generateImage (app blank_machine)) blank_machine)
     = blank_machine.
Proof.
  destruct (generate_blank_prompt good_world blank_machine eq_refl)
    as [_ [Hreq [_ [_ [Hfinal _]]]]].
  split; assumption.
Defined.

(** C4.  With a prompt that is not blank, the call asks the network once,
    and what it asks is the generation of one image for the trimmed
    prompt, at the selected size and quality. *)
Theorem generate_sends_one_request (w : world) (m : machine) :
  truthy (trim (App.prompt (app m))) = true ->
  let r := exec w (generateImage (app m)) m in
  let sent :=
    {| Request.prompt := trim (App.prompt (app m));
       Request.size := App.size (app m);
       Request.quality := App.quality (app m);
       Request.n := 1 |} in
  requests (trace r) = [sent]
  /\ filter is_network (trace r) = [Asked (AiGenerateImage sent)].
Proof.
  intros Hprompt r sent. subst r sent.
  destruct (generate_cases w m) as [Hblank | [_ [Hrej | [reply [Hreply Hdata]]]]].
  - cbn in Hblank. congruence.
  - rewrite (exec_generate_rejected w m Hprompt Hrej). split; reflexivity.
  - destruct Hdata as [Hnil | [first [others Hcons]]].
    + rewrite (exec_generate_empty w m Hprompt Hreply Hnil).
      split; reflexivity.
    + rewrite (exec_generate_success w m Hprompt Hreply Hcons).
      split; reflexivity.
Qed.

Lemma generate_sends_one_request_witness :
  requests (trace (exec good_world (generateImage fox_state) fox_machine))
  = [ {| Request.prompt := lit "a red fox";
         Request.size := lit "1024x1024";
         Request.quality := lit "high";
         Request.n := 1 |} ].
Proof.
  exact (proj1 (generate_sends_one_request good_world fox_machine eq_refl)).
Defined.

(** C5.  With a prompt that is not blank, the call raises the in-flight
    flag and then sends its request, and parks with the flag up; however
    the request settles, the resumed call runs to its end, lowers the flag
    as the last thing it does, and touches the flag at no other point.  Run
    in one go, the call sets the flag twice, up then down, and leaves it
    down. *)
Theorem generate_in_flight_flag (m : machine) :
  truthy (trim (App.prompt (app m))) = true ->
  let sent := AiGenerateImage (request_of (app m)) in
  let a := advance (generateImage (app m)) m in
  emitted a = [Did (SetState (setGenerating true)) tt; Asked sent]
  /\ App.generating (app (reached a)) = true
  /\ (exists k,
        rest a = Waiting (Susp sent k)
        /\ forall (r : settled Reply.t) (m' : machine),
             let b := advance (k r) m' in
             rest b = Finished tt
             /\ flat_map flag_set (emitted b) = [false]
             /\ last (emitted b) (Asked sent)
                = Did (SetState (setGenerating false)) tt
             /\ App.generating (app (reached b)) = false)
  /\ forall w : world,
       let r := exec w (generateImage (app m)) m in
       flat_map flag_set (trace r) = [true; false]
       /\ App.generating (app (final r)) = false
       /\ exists mid,
            trace r
            = Did (SetState (setGenerating true)) tt :: Asked sent
              :: Settled sent (generate_reply w (request_of (app m)))
              :: mid ++ [Did (SetState (setGenerating false)) tt]
            /\ flat_map flag_set mid = [].
Proof.
  intros Hprompt sent a. subst sent a.
  unfold generateImage at 1 2 3. rewrite Hprompt. cbn.
  split; [reflexivity|]. split; [reflexivity|]. split.
  - eexists. split; [reflexivity|].
    intros [reply|] m'; cbn; [destruct (Reply.data reply); cbn|];
      repeat split.
  - intros w.
    destruct (generate_cases w m) as [Hblank | [_ [Hrej | [reply [Hreply Hdata]]]]].
    + cbn in Hblank. congruence.
    + rewrite (exec_generate_rejected w m Hprompt Hrej). rewrite Hrej.
      repeat split.
      exists [Did (ToastError msg_generate_failed) tt]. split; reflexivity.
    + rewrite Hreply.
      destruct Hdata as [Hnil | [first [others Hcons]]].
      * rewrite (exec_generate_empty w m Hprompt Hreply Hnil).
        repeat split.
        exists [Did DateNow (clock m (ticks m));
                Did (ToastError msg_generate_failed) tt].
        split; reflexivity.
      * rewrite (exec_generate_success w m Hprompt Hreply Hcons).
        repeat split.
        eexists [_; _; _; _]. split; reflexivity.
Qed.

Lemma generate_in_flight_flag_witness :
  App.generating
    (app (reached (advance (generateImage fox_state) fox_machine))) = true
  /\ App.generating
       (app (final (exec down_world (generateImage fox_state) fox_machine)))
     = false.
Proof.
  destruct (generate_in_flight_flag fox_machine eq_refl)
    as [_ [Hup [_ Hrun]]].
  split; [exact Hup | exact (proj1 (proj2 (Hrun down_world)))].
Defined.

(** C7.  With a prompt that is not blank and a reply that has no item,
    reading the first item raises an exception: the [try] block ends
    abruptly, after one reading of the clock and before any image is
    built.  The call as a whole then shows the failure notification and
    leaves the images as they were. *)
Theorem generate_empty_reply_adds_nothing
  (w : world) (m : machine) (reply : Reply.t) :
  truthy (trim (App.prompt (app m))) = true ->
  generate_reply w (request_of (app m)) = Fulfilled reply ->
  Reply.data reply = [] ->
  let sent := AiGenerateImage (request_of (app m)) in
  let r := exec w (generateImage (app m)) m in
  first_item (Reply.data reply) = Throw
  /\ result (exec w (generateImage_try (app m)) m) = Abrupt
  /\ trace r
     = [ Did (SetState (setGenerating true)) tt;
         Asked sent;
         Settled sent (Fulfilled reply);
         Did DateNow (clock m (ticks m));
         Did (ToastError msg_generate_failed) tt;
         Did (SetState (setGenerating false)) tt ]
  /\ App.generatedImages (app (final r)) = App.generatedImages (app m)
  /\ toasts (trace r) = [Error msg_generate_failed].
Proof.
  intros Hprompt Hreply Hdata sent r. subst sent r.
  rewrite (exec_generate_empty w m Hprompt Hreply Hdata).
  split; [rewrite Hdata; reflexivity|].
  split; [|repeat split].
  unfold generateImage_try. cbn. rewrite Hreply. cbn. rewrite Hdata.
  reflexivity.
Qed.

Lemma generate_empty_reply_adds_nothing_witness :
  result (exec empty_world (generateImage_try fox_state) fox_machine) = Abrupt
  /\ App.generatedImages
       (app (final (exec empty_world (generateImage fox_state) fox_machine)))
     = [].
Proof.
  destruct (generate_empty_reply_adds_nothing empty_world fox_machine
              (reply := no_image) eq_refl eq_refl eq_refl)
    as [_ [Habrupt [_ [Himages _]]]].
  split; assumption.
Defined.

(** C10.  Whatever the prompt and whatever the reply, a call leaves the
    prompt, the size and the quality as they were (and the user, the
    loading flag, the browser and the provider): the state after it is
    the state before it with the in-flight flag set and the images
    updated, and the images are as before unless the success notification
    was shown. *)
Theorem generate_frame (w : world) (m : machine) :
  let r := exec w (generateImage (app m)) m in
  App.prompt (app (final r)) = App.prompt (app m)
  /\ App.size (app (final r)) = App.size (app m)
  /\ App.quality (app (final r)) = App.quality (app m)
  /\ App.user (app (final r)) = App.user (app m)
  /\ App.loading (app (final r)) = App.loading (app m)
  /\ dom (final r) = dom m
  /\ auth (final r) = auth m
  /\ (exists b f,
        app (final r)
        = apply_setter (setGenerating b)
            (apply_setter (setGeneratedImages f) (app m)))
  /\ (App.generatedImages (app (final r)) = App.generatedImages (app m)
      \/ toasts (trace r) = [Success msg_generated]).
Proof.
  intros r. subst r.
  assert (Hself : app m
                  = apply_setter (setGenerating (App.generating (app m)))
                      (apply_setter (setGeneratedImages (fun l => l)) (app m)))
    by (destruct (app m); reflexivity).
  destruct (generate_cases w m)
    as [Hblank | [Hprompt [Hrej | [reply [Hreply Hdata]]]]].
  - rewrite (exec_generate_blank w m Hblank).
    repeat split; try reflexivity.
    + eexists _, _. exact Hself.
    + now left.
  - rewrite (exec_generate_rejected w m Hprompt Hrej).
    repeat split; try reflexivity.
    + exists false, (fun l => l). reflexivity.
    + now left.
  - destruct Hdata as [Hnil | [first [others Hcons]]].
    + rewrite (exec_generate_empty w m Hprompt Hreply Hnil).
      repeat split; try reflexivity.
      * exists false, (fun l => l). reflexivity.
      * now left.
    + rewrite (exec_generate_success w m Hprompt Hreply Hcons).
      repeat split; try reflexivity.
      * eexists false, _. reflexivity.
      * now right.
Qed.

(** ** [downloadImage] *)

Lemma nth_error_update_nth (A : Type) (f : A -> A) (l : list A) (i : nat) :
  nth_error (update_nth i f l) i = option_map f (nth_error l i).
Proof.
  revert i. induction l as [|x l IH]; intros [|i]; cbn; auto.
Qed.

Lemma nth_error_snoc_last (A : Type) (l : list A) (x : A) :
  nth_error (l ++ [x]) (List.length l) = Some x.
Proof.
  induction l as [|y l IH]; cbn; auto.
Qed.

Lemma remove_first_snoc (a : nat) (l : list nat) :
  ~ In a l -> remove_first Nat.eqb a (l ++ [a]) = l.
Proof.
  induction l as [|y l IH]; cbn; intros Hfresh.
  - now rewrite Nat.eqb_refl.
  - destruct (Nat.eqb_spec a y) as [->|Hne].
    + exfalso. apply Hfresh. now left.
    + f_equal. apply IH. intros Hin. apply Hfresh. now right.
Qed.

Lemma jsstring_eqb_refl (s : jsstring) : jsstring_eqb s s = true.
Proof.
  unfold jsstring_eqb. destruct (list_eq_dec N.eq_dec s s); congruence.
Qed.

(** The name of the saved file: the fixed prefix and suffix around at most
    thirty code units, each one of the prompt or a hyphen. *)
Lemma download_name_shape (prompt : jsstring) :
  let middle := replace_non_alnum (slice0 30 prompt) in
  download_name prompt = lit "ai-generated-" ++ middle ++ lit ".png"
  /\ List.length middle = Nat.min 30 (List.length prompt)
  /\ forall i c,
       i < 30 -> nth_error prompt i = Some c ->
       nth_error middle i = Some (if is_alnum c then c else hyphen).
Proof.
  intros middle. subst middle. split; [reflexivity|]. split.
  - now rewrite replace_non_alnum_length, slice0_length.
  - intros i c Hi Hc. apply replace_non_alnum_nth.
    now rewrite slice0_nth.
Qed.

(** C8.  [downloadImage] names the file after the first thirty code units
    of the prompt, each one kept when it is a letter or digit of ASCII and
    replaced by a hyphen otherwise.  When the resource and its blob
    arrive, it creates an object URL and an anchor, gives the anchor that
    URL and that name, adds it to the body, clicks it, revokes the URL,
    removes the anchor, and shows the success notification: one download
    is started, and the body and the live object URLs end as they began.
    When either promise is rejected, it shows the failure notification
    and changes nothing. *)
Theorem download_saves_and_cleans_up
  (w : world) (m : machine) (imageUrl prompt : jsstring) :
  let a := List.length (elements (dom m)) in
  let u := object_url (minted (dom m)) in
  let name := download_name prompt in
  let middle := replace_non_alnum (slice0 30 prompt) in
  let r := exec w (downloadImage imageUrl prompt) m in
  ~ In a (body (dom m)) ->
  name = lit "ai-generated-" ++ middle ++ lit ".png"
  /\ List.length middle = Nat.min 30 (List.length prompt)
  /\ (forall i c,
        i < 30 -> nth_error prompt i = Some c ->
        nth_error middle i = Some (if is_alnum c then c else hyphen))
  /\ match fetch_reply w imageUrl with
     | Fulfilled response =>
         match blob_reply w response with
         | Fulfilled blob =>
             trace r
             = [ Asked (Fetch imageUrl);
                 Settled (Fetch imageUrl) (Fulfilled response);
                 Asked (ResponseBlob response);
                 Settled (ResponseBlob response) (Fulfilled blob);
                 Did (CreateObjectURL blob) u;
                 Did (CreateElement (lit "a")) a;
                 Did (SetHref a u) tt;
                 Did (SetDownload a name) tt;
                 Did (AppendChild a) tt;
                 Did (Click a) tt;
                 Did (RevokeObjectURL u) tt;
                 Did (RemoveChild a) tt;
                 Did (ToastSuccess msg_downloaded) tt ]
             /\ saved (dom (final r)) = saved (dom m) ++ [(u, name)]
             /\ body (dom (final r)) = body (dom m)
             /\ objectURLs (dom (final r)) = objectURLs (dom m)
             /\ app (final r) = app m
         | Rejected =>
             toasts (trace r) = [Error msg_download_failed]
             /\ filter is_network (trace r)
                = [Asked (Fetch imageUrl); Asked (ResponseBlob response)]
             /\ final r = m
         end
     | Rejected =>
         toasts (trace r) = [Error msg_download_failed]
         /\ filter is_network (trace r) = [Asked (Fetch imageUrl)]
         /\ final r = m
     end.
Proof.
  intros a u name middle r Hfresh.
  destruct (download_name_shape prompt) as [Hname [Hlen Hnth]].
  split; [exact Hname|]. split; [exact Hlen|]. split; [exact Hnth|].
  subst r. unfold downloadImage. cbn.
  destruct (fetch_reply w imageUrl) as [response|]; cbn;
    [|repeat split].
  destruct (blob_reply w response) as [blob|]; cbn; [|repeat split].
  split; [reflexivity|].
  rewrite !nth_error_update_nth, nth_error_snoc_last. cbn.
  rewrite jsstring_eqb_refl.
  repeat split. now apply remove_first_snoc.
Qed.

Lemma download_saves_and_cleans_up_witness :
  download_name long_prompt
  = lit "ai-generated-A-majestic-mountain--at-sunset.png"
  /\ saved (dom (final (exec good_world
                          (downloadImage (lit "https://cdn.example/fox.png")
                             long_prompt) fox_machine)))
     = [(lit "blob:0", lit "ai-generated-A-majestic-mountain--at-sunset.png")].
Proof.
  destruct (download_saves_and_cleans_up good_world fox_machine
              (lit "https://cdn.example/fox.png") long_prompt
              (fun H : In 0 [] => H))
    as [Hname [_ [_ [_ [Hsaved _]]]]].
  split; [exact Hname | exact Hsaved].
Defined.

(** Where [downloadImage] parks, and that its continuations are of the
    kind the invariant allows. *)
Lemma advance_download (m : machine) (imageUrl prompt : jsstring) :
  let a := advance (downloadImage imageUrl prompt) m in
  reached a = m
  /\ emitted a = [Asked (Fetch imageUrl)]
  /\ exists k, rest a = Waiting (Susp (Fetch imageUrl) k) /\ fetch_resumes k.
Proof.
  cbn. split; [reflexivity|]. split; [reflexivity|].
  eexists. split; [reflexivity|].
  intros [response|] m'; cbn; [|repeat split].
  split; [split; reflexivity|].
  intros [blob|] m''; cbn; repeat split.
Qed.

(** ** The mounted component: what holds in every reachable state *)

Lemma successes_app (h1 h2 : list obs) :
  successes (h1 ++ h2) = successes h1 ++ successes h2.
Proof. apply flat_map_app. Qed.

(** Running a program up to an [await] settles nothing. *)
Lemma advance_settles_nothing (R : Type) (p : prog R) (m : machine) :
  successes (emitted (advance p m)) = [].
Proof.
  revert m. induction p as [r| |X e k IH|X e k IH]; intros m; cbn; auto.
Qed.

Lemma Forall_remove_nth (A : Type) (P : A -> Prop) (i : nat) (l : list A) :
  Forall P l -> Forall P (remove_nth i l).
Proof.
  intros H. revert i. induction H as [|x l Hx Hl IH]; intros [|i]; cbn; auto.
Qed.

Lemma Forall_nth_error (A : Type) (P : A -> Prop) (i : nat) (l : list A) (x : A) :
  Forall P l -> nth_error l i = Some x -> P x.
Proof.
  intros H. revert i. induction H as [|y l Hy Hl IH]; intros [|i] Hnth;
    cbn in Hnth; try discriminate.
  - now inversion Hnth; subst.
  - eauto.
Qed.

(** Where [generateImage] parks. *)
Lemma advance_generate (m : machine) :
  let a := advance (generateImage (app m)) m in
  quiet a m
  /\ match rest a with
     | Finished _ => truthy (trim (App.prompt (app m))) = false
     | Uncaught => False
     | Waiting c =>
         truthy (trim (App.prompt (app m))) = true /\ parked_ok c
     end.
Proof.
  unfold generateImage.
  destruct (truthy (trim (App.prompt (app m)))); cbn;
    [|repeat split].
  split; [split; reflexivity|]. split; [reflexivity|].
  intros [reply|] m'; cbn; [|repeat split].
  destruct (Reply.data reply) as [|first others]; cbn; repeat split.
  eexists. split; reflexivity.
Qed.

(** The component after mounting. *)
Lemma boot_invariant (clk : nat -> Z) : invariant (boot clk).
Proof.
  repeat split. constructor.
Qed.

(** A handler that leaves the images and the observers alone keeps the
    invariant, wherever it ends or parks. *)
Lemma launch_quiet (before : list obs) (p : prog unit) (s : system) :
  invariant s ->
  successes before = [] ->
  quiet (advance p (mach s)) (mach s) ->
  match rest (advance p (mach s)) with
  | Waiting c => parked_ok c
  | _ => True
  end ->
  invariant (launch before p s)
  /\ images (launch before p s) = images s
  /\ successes (history (launch before p s)) = successes (history s).
Proof.
  intros [Hpending [Himages Hobs]] Hbefore [Hsame Hauth] Hrest.
  assert (Hhist : successes (history (launch before p s))
                  = successes (history s)).
  { unfold launch. cbn.
    rewrite !successes_app, Hbefore, advance_settles_nothing.
    now rewrite !app_nil_r. }
  split; [|split; [exact Hsame | exact Hhist]].
  split; [|split].
  - unfold launch. cbn.
    destruct (rest (advance p (mach s))); auto.
    apply Forall_app. split; [exact Hpending | now constructor].
  - rewrite Hhist. unfold images, launch. cbn.
    unfold images in Himages. now rewrite Hsame.
  - unfold launch. cbn. now rewrite Hauth.
Qed.

Lemma unpark_invariant (i : nat) (s : system) :
  invariant s -> invariant (unpark i s).
Proof.
  intros [Hpending [Himages Hobs]].
  split; [|split; assumption].
  now apply Forall_remove_nth.
Qed.

(** The observer touches the user and the loading flag only. *)
Lemma notify_quiet (state : AuthState.t) (s : system) :
  invariant s ->
  invariant (notify state s)
  /\ images (notify state s) = images s
  /\ successes (history (notify state s)) = successes (history s).
Proof.
  intros [Hpending [Himages Hobs]].
  assert (Hcalls : notified state (auth (mach s)) = authObserver state)
    by (unfold notified; rewrite Hobs; reflexivity).
  assert (Hhist : successes (history (notify state s))
                  = successes (history s)).
  { unfold notify. cbn. rewrite Hcalls, successes_app. cbn.
    now rewrite app_nil_r. }
  assert (Hsame : images (notify state s) = images s)
    by (unfold notify, images; cbn; now rewrite Hcalls).
  split; [|split; assumption].
  split; [exact Hpending|]. split.
  - now rewrite Hhist, Hsame.
  - exact Hobs.
Qed.

(** A generation request settles: the parked call adds the image of the
    reply when the reply has an item, and nothing otherwise. *)
Lemma settle_generate (i : nat) (r : settled Reply.t) (s s' : system) :
  invariant s ->
  step (GenerateSettles i r) s = Some s' ->
  invariant s'
  /\ match r with
     | Fulfilled reply =>
         match Reply.data reply with
         | first :: _ => adds_image_of first s s'
         | [] => adds_nothing s s'
         end
     | Rejected => adds_nothing s s'
     end.
Proof.
  intros Hinv Hstep. cbn in Hstep. unfold settle in Hstep.
  destruct (nth_error (pending s) i) as [c|] eqn:Hnth; [|discriminate].
  assert (Hc : parked_ok c)
    by (destruct Hinv as [Hpending _]; eapply Forall_nth_error; eauto).
  destruct c as [X e k]. destruct e as [req|u|b]; cbn in Hstep;
    try discriminate.
  injection Hstep as <-.
  cbn in Hc. specialize (Hc r (mach s)). cbn in Hc.
  destruct Hc as [Hrest [Hauth Hadd]].
  destruct (unpark_invariant i Hinv) as [Hpending [Himages Hobs]].
  unfold images in Himages. cbn in Hpending, Himages, Hobs.
  assert (Hhist : successes
                    (history (launch [Settled (AiGenerateImage req) r] (k r)
                                (unpark i s)))
                  = successes (history s)
                    ++ success_of (Settled (AiGenerateImage req) r)).
  { unfold launch. cbn [history unpark].
    rewrite !successes_app, advance_settles_nothing. cbn.
    now rewrite !app_nil_r. }
  assert (Hpend : Forall parked_ok
                    (pending (launch [Settled (AiGenerateImage req) r] (k r)
                                (unpark i s))))
    by (unfold launch; cbn; rewrite Hrest; exact Hpending).
  assert (Hobs' : observers
                    (auth (mach (launch [Settled (AiGenerateImage req) r]
                                   (k r) (unpark i s))))
                  = [(0, authObserver)])
    by (unfold launch; cbn; now rewrite Hauth).
  unfold invariant, adds_image_of, adds_nothing. rewrite Hhist.
  unfold images. cbn [mach launch unpark]. cbn [success_of] in *.
  revert Hadd.
  destruct r as [reply|]; [destruct (Reply.data reply) as [|first others]|].
  - intros Hadd. rewrite Hadd, app_nil_r. repeat split; assumption.
  - intros [g [Hg Hcore]]. rewrite Hg. split.
    + split; [exact Hpend|]. split; [|exact Hobs'].
      rewrite map_app, rev_app_distr. cbn [map rev List.app].
      now rewrite Hcore, Himages.
    + exists g, req. repeat split; assumption.
  - intros Hadd. rewrite Hadd, app_nil_r. repeat split; assumption.
Qed.

Lemma settle_fetch (i : nat) (r : settled Response) (s s' : system) :
  invariant s ->
  step (FetchSettles i r) s = Some s' ->
  invariant s' /\ adds_nothing s s'.
Proof.
  intros Hinv Hstep. cbn in Hstep. unfold settle in Hstep.
  destruct (nth_error (pending s) i) as [c|] eqn:Hnth; [|discriminate].
  assert (Hc : parked_ok c)
    by (destruct Hinv as [Hpending _]; eapply Forall_nth_error; eauto).
  destruct c as [X e k]. destruct e as [req|u|b]; cbn in Hstep;
    try discriminate.
  injection Hstep as <-.
  cbn in Hc. destruct (Hc r (mach s)) as [Hquiet Hrest].
  apply (launch_quiet [Settled (Fetch u) r] (k r) (unpark_invariant i Hinv));
    [reflexivity | exact Hquiet |].
  cbn [mach unpark].
  destruct (rest (advance (k r) (mach s))) as [[]| |[Y e k']]; auto.
  destruct e; cbn in *; tauto.
Qed.

Lemma settle_blob (i : nat) (r : settled Blob) (s s' : system) :
  invariant s ->
  step (BlobSettles i r) s = Some s' ->
  invariant s' /\ adds_nothing s s'.
Proof.
  intros Hinv Hstep. cbn in Hstep. unfold settle in Hstep.
  destruct (nth_error (pending s) i) as [c|] eqn:Hnth; [|discriminate].
  assert (Hc : parked_ok c)
    by (destruct Hinv as [Hpending _]; eapply Forall_nth_error; eauto).
  destruct c as [X e k]. destruct e as [req|u|b]; cbn in Hstep;
    try discriminate.
  injection Hstep as <-.
  cbn in Hc. destruct (Hc r (mach s)) as [Hquiet Hrest].
  apply (launch_quiet [Settled (ResponseBlob b) r] (k r)
           (unpark_invariant i Hinv));
    [reflexivity | exact Hquiet |].
  cbn [mach unpark]. now rewrite Hrest.
Qed.

(** Every step keeps the invariant; it adds nothing to the images, unless
    it is a generation request that settles with an item, and then it adds
    the image of that call. *)
Lemma step_invariant (l : label) (s s' : system) :
  invariant s ->
  step l s = Some s' ->
  invariant s'
  /\ (adds_nothing s s'
      \/ exists i reply first others,
           l = GenerateSettles i (Fulfilled reply)
           /\ Reply.data reply = first :: others
           /\ adds_image_of first s s').
Proof.
  intros Hinv Hstep.
  assert (Hsimple : forall p,
             quiet (advance p (mach s)) (mach s) ->
             match rest (advance p (mach s)) with
             | Waiting c => parked_ok c
             | _ => True
             end ->
             Some (launch [] p s) = Some s' ->
             invariant s' /\ adds_nothing s s').
  { intros p Hquiet Hrest Heq. injection Heq as <-.
    now apply launch_quiet. }
  assert (Hweak : invariant s' /\ adds_nothing s s' ->
                  invariant s'
                  /\ (adds_nothing s s'
                      \/ exists i reply first others,
                           l = GenerateSettles i (Fulfilled reply)
                           /\ Reply.data reply = first :: others
                           /\ adds_image_of first s s')) by tauto.
  destruct l as [v|v|v| |i| |state|i r|i r|i r].
  - apply Hweak, (Hsimple (onPromptChange v)); repeat split. exact Hstep.
  - apply Hweak, (Hsimple (onSizeChange v)); repeat split. exact Hstep.
  - apply Hweak, (Hsimple (onQualityChange v)); repeat split. exact Hstep.
  - destruct (advance_generate (mach s)) as [Hquiet Hrest].
    apply Hweak, (Hsimple (generateImage (app (mach s))));
      [exact Hquiet | | exact Hstep].
    destruct (rest (advance (generateImage (app (mach s))) (mach s)));
      tauto.
  - cbn in Hstep.
    destruct (nth_error (images s) i) as [image|]; [|discriminate].
    destruct (advance_download (mach s) (GeneratedImage.url image)
                (GeneratedImage.prompt image)) as [Hm [_ [k [Hrest Hk]]]].
    apply Hweak, (Hsimple (downloadImage (GeneratedImage.url image)
                             (GeneratedImage.prompt image)));
      [split; now rewrite Hm | now rewrite Hrest | exact Hstep].
  - apply Hweak, (Hsimple onSignOut); repeat split. exact Hstep.
  - cbn in Hstep. injection Hstep as <-.
    apply Hweak, notify_quiet, Hinv.
  - destruct (settle_generate i r Hinv Hstep) as [Hinv' Hadd].
    split; [exact Hinv'|].
    destruct r as [reply|]; [|now left].
    destruct (Reply.data reply) as [|first others] eqn:Hdata; [now left|].
    right. exists i, reply, first, others. auto.
  - apply Hweak, (settle_fetch i r Hinv Hstep).
  - apply Hweak, (settle_blob i r Hinv Hstep).
Qed.

Lemma run_invariant (ls : list label) (s s' : system) :
  invariant s -> run ls s = Some s' -> invariant s'.
Proof.
  revert s. induction ls as [|l ls IH]; intros s Hinv Hrun; cbn in Hrun.
  - now injection Hrun as <-.
  - destruct (step l s) as [s1|] eqn:Hstep; [|discriminate].
    apply (IH s1); [|exact Hrun].
    now destruct (step_invariant l Hinv Hstep).
Qed.

Lemma reachable_invariant (clk : nat -> Z) (ls : list label) (s : system) :
  run ls (boot clk) = Some s -> invariant s.
Proof.
  apply run_invariant, boot_invariant.
Qed.

(** C6.  In every state that the mounted component can reach, the images
    are, newest first, the images of the generation calls that succeeded
    so far, one for one: each has the URL of the first item of the reply
    and the prompt, size and quality of the request.  A step from such a
    state either leaves the images and the successful calls as they are,
    or is a generation request settling with at least one item, and then
    it puts one image in front and leaves the others as they are.  A
    request that is refused, or answered with no item, adds nothing. *)
Theorem images_are_the_successful_calls
  (clk : nat -> Z) (ls : list label) (s : system) :
  run ls (boot clk) = Some s ->
  map image_core (images s) = rev (map call_core (successes (history s)))
  /\ List.length (images s) = List.length (successes (history s))
  /\ (forall l s',
        step l s = Some s' ->
        adds_nothing s s'
        \/ exists i reply first others,
             l = GenerateSettles i (Fulfilled reply)
             /\ Reply.data reply = first :: others
             /\ adds_image_of first s s')
  /\ (forall i s',
        step (GenerateSettles i Rejected) s = Some s' -> adds_nothing s s')
  /\ (forall i reply s',
        Reply.data reply = [] ->
        step (GenerateSettles i (Fulfilled reply)) s = Some s' ->
        adds_nothing s s')
  /\ (forall i reply first others s',
        Reply.data reply = first :: others ->
        step (GenerateSettles i (Fulfilled reply)) s = Some s' ->
        adds_image_of first s s').
Proof.
  intros Hrun.
  assert (Hinv : invariant s) by (eapply reachable_invariant; eauto).
  assert (Himages : map image_core (images s)
                    = rev (map call_core (successes (history s))))
    by (destruct Hinv as [_ [H _]]; exact H).
  split; [exact Himages|]. split.
  { apply (f_equal (@List.length _)) in Himages.
    now rewrite length_map, length_rev, length_map in Himages. }
  split; [|split; [|split]].
  - intros l s' Hstep. now destruct (step_invariant l Hinv Hstep).
  - intros i s' Hstep. now destruct (settle_generate i _ Hinv Hstep).
  - intros i reply s' Hdata Hstep.
    destruct (settle_generate i _ Hinv Hstep) as [_ Hadd].
    now rewrite Hdata in Hadd.
  - intros i reply first others s' Hdata Hstep.
    destruct (settle_generate i _ Hinv Hstep) as [_ Hadd].
    now rewrite Hdata in Hadd.
Qed.

Lemma images_are_the_successful_calls_witness :
  exists s,
    run demo_run (boot demo_clock) = Some s
    /\ map image_core (images s)
       = [(lit "https://cdn.example/fox.png", lit "a red fox",
           lit "1024x1024", lit "high")]
    /\ List.length (images s) = List.length (successes (history s)).
Proof.
  eexists. split; [reflexivity|].
  split; [reflexivity|].
  exact (proj1 (proj2 (images_are_the_successful_calls
                         demo_clock demo_run eq_refl))).
Defined.

(** ** The session observer *)

(** Mounting and then tearing down leaves the provider with the
    observers it had, whatever they were, as long as the handle it hands
    out is not already taken. *)
Lemma mount_then_unmount (m : machine) :
  Forall (fun o => fst o <> issued (auth m)) (observers (auth m)) ->
  let a := mount m in
  rest a = Finished (issued (auth m))
  /\ observers (auth (reached a))
     = (issued (auth m), authObserver) :: observers (auth m)
  /\ observers (auth (reached (unmount (issued (auth m)) (reached a))))
     = observers (auth m).
Proof.
  intros Hfresh. cbn. split; [reflexivity|]. split; [reflexivity|].
  rewrite Nat.eqb_refl. cbn.
  induction Hfresh as [|o l Ho Hl IH]; cbn; [reflexivity|].
  destruct (Nat.eqb_spec (fst o) (issued (auth m))); [contradiction|].
  cbn. now rewrite IH.
Qed.

(** * Further properties of the code *)

(** ** [trim] and the guard of [generateImage] *)

Lemma trim_start_split (s : jsstring) :
  exists pre,
    s = pre ++ trim_start s /\ blank pre = true /\ starts_clean (trim_start s).
Proof.
  induction s as [|c s [pre [Hs [Hpre Hclean]]]].
  - exists []. repeat split.
  - cbn. destruct (is_white_space c) eqn:Hc.
    + exists (c :: pre). cbn. rewrite Hc. repeat split; try assumption.
      now rewrite <- Hs.
    + exists []. repeat split. exact Hc.
Qed.

Lemma trim_start_clean (s : jsstring) : starts_clean s -> trim_start s = s.
Proof.
  destruct s as [|c s]; cbn; [reflexivity|]. now intros ->.
Qed.

Lemma trim_start_snoc (s : jsstring) (c : char16) :
  is_white_space c = false -> trim_start (s ++ [c]) = trim_start s ++ [c].
Proof.
  intros Hc. induction s as [|d s IH]; cbn.
  - now rewrite Hc.
  - destruct (is_white_space d); [exact IH | reflexivity].
Qed.

Lemma trim_start_blank (s : jsstring) :
  trim_start s = [] <-> blank s = true.
Proof.
  induction s as [|c s IH]; cbn; [tauto|].
  destruct (is_white_space c); cbn; [exact IH|].
  split; discriminate.
Qed.

Lemma blank_rev (s : jsstring) : blank (rev s) = blank s.
Proof.
  unfold blank. induction s as [|c s IH]; cbn; [reflexivity|].
  rewrite forallb_app, IH. cbn. rewrite andb_true_r. apply andb_comm.
Qed.

Lemma trim_end_split (s : jsstring) :
  exists post,
    s = trim_end s ++ post /\ blank post = true /\ ends_clean (trim_end s).
Proof.
  unfold trim_end, ends_clean.
  destruct (trim_start_split (rev s)) as [pre [Hs [Hpre Hclean]]].
  exists (rev pre). rewrite rev_involutive. repeat split.
  - rewrite <- rev_app_distr, <- Hs. now rewrite rev_involutive.
  - now rewrite blank_rev.
  - exact Hclean.
Qed.

Lemma trim_end_blank (s : jsstring) : trim_end s = [] <-> blank s = true.
Proof.
  unfold trim_end. rewrite <- (blank_rev s), <- trim_start_blank.
  split; intros H.
  - apply (f_equal (@rev _)) in H. now rewrite rev_involutive in H.
  - now rewrite H.
Qed.

(** Stripping the end keeps a clean start. *)
Lemma trim_end_keeps_start (s : jsstring) :
  starts_clean s -> starts_clean (trim_end s).
Proof.
  destruct s as [|c s]; [intros _; exact I|].
  cbn. intros Hc. unfold trim_end. cbn [rev].
  rewrite trim_start_snoc by exact Hc. rewrite rev_app_distr. exact Hc.
Qed.

Lemma trim_end_clean (s : jsstring) : ends_clean s -> trim_end s = s.
Proof.
  unfold ends_clean, trim_end. intros H.
  rewrite trim_start_clean by exact H. apply rev_involutive.
Qed.

(** [trim] gives the empty string exactly for the strings made of white
    space only, the empty string among them. *)
Lemma trim_empty_iff_blank (s : jsstring) :
  (trim s = [] <-> blank s = true)
  /\ (truthy (trim s) = false <-> blank s = true).
Proof.
  assert (H : trim s = [] <-> blank s = true).
  { unfold trim. split.
    - intros He. apply trim_end_blank in He. apply trim_start_blank.
      destruct (trim_start_split s) as [pre [_ [_ Hclean]]].
      destruct (trim_start s) as [|c t]; [reflexivity|].
      cbn in He, Hclean. rewrite Hclean in He. discriminate.
    - intros Hb. apply trim_start_blank in Hb. now rewrite Hb. }
  split; [exact H|]. rewrite <- H.
  destruct (trim s); cbn; split; congruence.
Qed.

(** X2.  [trim] cuts white space off both ends and nothing else: the
    string is a run of white space, then its trimmed form, then a run of
    white space, and the trimmed form neither begins nor ends with white
    space.  So trimming again changes nothing, and the prompt that
    [generateImage] sends and stores is already trimmed. *)
Theorem trim_cuts_both_ends (s : jsstring) :
  (exists pre post,
     s = pre ++ trim s ++ post /\ blank pre = true /\ blank post = true)
  /\ starts_clean (trim s)
  /\ ends_clean (trim s)
  /\ trim (trim s) = trim s
  /\ (forall st : App.state,
        trim (Request.prompt (request_of st)) = Request.prompt (request_of st)).
Proof.
  destruct (trim_start_split s) as [pre [Hs [Hpre Hstart]]].
  destruct (trim_end_split (trim_start s)) as [post [Ht [Hpost Hend]]].
  assert (Hclean : starts_clean (trim s))
    by (apply trim_end_keeps_start, Hstart).
  assert (Hidem : forall t, trim (trim t) = trim t).
  { intros t. unfold trim at 1.
    destruct (trim_start_split t) as [_ [_ [_ Hst]]].
    destruct (trim_end_split (trim_start t)) as [_ [_ [_ Hen]]].
    rewrite trim_start_clean by (apply trim_end_keeps_start, Hst).
    now apply trim_end_clean. }
  split; [|repeat split; auto].
  - exists pre, post. split; [|split; assumption].
    unfold trim. now rewrite <- Ht.
  - intros st. apply Hidem.
Qed.

(** ** The name of the saved file *)

Lemma replace_non_alnum_safe (s : jsstring) :
  forallb is_name_char (replace_non_alnum s) = true.
Proof.
  unfold replace_non_alnum, is_name_char.
  induction s as [|c s IH]; cbn [map forallb]; [reflexivity|].
  rewrite IH, andb_true_r.
  destruct (is_alnum c) eqn:Hc; [now rewrite Hc | reflexivity].
Qed.

(** X3.  Whatever the prompt, the file name holds letters and digits of
    ASCII, hyphens and full stops only (no separator of a path, no space,
    no code unit outside ASCII), and it is between 17 and 47 code units
    long: 17 more than the prompt, up to thirty of it. *)
Theorem download_name_is_safe (prompt : jsstring) :
  forallb is_name_char (download_name prompt) = true
  /\ List.length (download_name prompt)
     = 17 + Nat.min 30 (List.length prompt)
  /\ 17 <= List.length (download_name prompt) <= 47.
Proof.
  assert (Hlen : List.length (download_name prompt)
                 = 17 + Nat.min 30 (List.length prompt)).
  { unfold download_name.
    rewrite !length_app, replace_non_alnum_length, slice0_length.
    change (List.length (lit "ai-generated-")) with 13.
    change (List.length (lit ".png")) with 4. lia. }
  split; [|split; [exact Hlen | lia]].
  unfold download_name. rewrite !forallb_app, replace_non_alnum_safe.
  reflexivity.
Qed.

(** ** Every call ends, with one notification *)

(** X4.  Whatever the prompt and the reply, a call of [generateImage]
    ends normally (no exception leaves it), shows exactly one
    notification, and adds at most one image: one when the notification is
    the success one, none when it is an error. *)
Theorem generate_shows_one_notification (w : world) (m : machine) :
  let r := exec w (generateImage (app m)) m in
  let before := App.generatedImages (app m) in
  let after := App.generatedImages (app (final r)) in
  result r = Normal tt
  /\ List.length (toasts (trace r)) = 1
  /\ (toasts (trace r) = [Success msg_generated]
      /\ List.length after = S (List.length before)
      \/ (exists msg, toasts (trace r) = [Error msg]) /\ after = before).
Proof.
  intros r before after. subst r before after.
  destruct (generate_cases w m)
    as [Hblank | [Hprompt [Hrej | [reply [Hreply Hdata]]]]].
  - rewrite (exec_generate_blank w m Hblank).
    repeat split. right. split; [eexists|]; reflexivity.
  - rewrite (exec_generate_rejected w m Hprompt Hrej).
    repeat split. right. split; [eexists|]; reflexivity.
  - destruct Hdata as [Hnil | [first [others Hcons]]].
    + rewrite (exec_generate_empty w m Hprompt Hreply Hnil).
      repeat split. right. split; [eexists|]; reflexivity.
    + rewrite (exec_generate_success w m Hprompt Hreply Hcons).
      repeat split. left. split; reflexivity.
Qed.

(** X5.  Whatever the replies, a call of [downloadImage] ends normally
    and shows exactly one notification; it asks nothing of the generation
    endpoint, reads no clock, and leaves the state of the component and
    the provider as they were; it starts at most one download, and it
    starts one exactly when it shows the success notification, which is
    when both promises are fulfilled. *)
Theorem download_leaves_component_alone
  (w : world) (m : machine) (imageUrl prompt : jsstring) :
  let r := exec w (downloadImage imageUrl prompt) m in
  result r = Normal tt
  /\ List.length (toasts (trace r)) = 1
  /\ requests (trace r) = []
  /\ app (final r) = app m
  /\ auth (final r) = auth m
  /\ ticks (final r) = ticks m
  /\ (toasts (trace r) = [Success msg_downloaded]
      /\ List.length (saved (dom (final r)))
         = S (List.length (saved (dom m)))
      /\ (exists response blob,
            fetch_reply w imageUrl = Fulfilled response
            /\ blob_reply w response = Fulfilled blob)
      \/ toasts (trace r) = [Error msg_download_failed]
         /\ dom (final r) = dom m
         /\ (fetch_reply w imageUrl = Rejected
             \/ exists response,
                  fetch_reply w imageUrl = Fulfilled response
                  /\ blob_reply w response = Rejected)).
Proof.
  intros r. subst r. unfold downloadImage. cbn.
  destruct (fetch_reply w imageUrl) as [response|] eqn:Hfetch; cbn.
  - destruct (blob_reply w response) as [blob|] eqn:Hblob; cbn.
    + repeat split. left. split; [reflexivity|]. split; [|eauto].
      rewrite !nth_error_update_nth, nth_error_snoc_last. cbn.
      rewrite length_app. cbn. lia.
    + repeat split. right. repeat split. right. eauto.
  - repeat split. right. repeat split. now left.
Qed.

(** ** Identifiers and the clock *)

Lemma lit_injective (s t : string) : lit s = lit t -> s = t.
Proof.
  unfold lit. intros H.
  rewrite <- (string_of_list_ascii_of_string s).
  rewrite <- (string_of_list_ascii_of_string t).
  f_equal.
  revert H. generalize (list_ascii_of_string t).
  induction (list_ascii_of_string s) as [|a l IH]; intros [|b l'] H;
    cbn in H; try discriminate; [reflexivity|].
  injection H as Hab Hl.
  f_equal; [|now apply IH].
  rewrite <- (ascii_N_embedding a), <- (ascii_N_embedding b).
  now rewrite Hab.
Qed.

Lemma to_int_proper (n : Z) :
  Z.to_int n <> Decimal.Pos Decimal.Nil /\ Z.to_int n <> Decimal.Neg Decimal.Nil.
Proof.
  destruct n as [|p|p]; cbn; split; try discriminate;
    intros [= H]; now apply (DecimalPos.Unsigned.to_uint_nonnil p).
Qed.

(** Two numbers with the same text are the same number. *)
Lemma toString_injective (a b : Z) : toString a = toString b -> a = b.
Proof.
  unfold toString. intros H. apply lit_injective in H.
  apply DecimalZ.to_int_inj.
  destruct (to_int_proper a) as [Ha1 Ha2].
  destruct (to_int_proper b) as [Hb1 Hb2].
  pose proof (NilZero.isi (Z.to_int a) Ha1 Ha2) as Ia.
  pose proof (NilZero.isi (Z.to_int b) Hb1 Hb2) as Ib.
  rewrite H in Ia. congruence.
Qed.

(** X6.  Two calls of [generateImage], one after the other, each
    answered with at least one item, put two images in front of the
    others; the two have the same identifier (the key of their cards)
    exactly when the clock gave the same value at the first reading of
    each call. *)
Theorem consecutive_images_share_id_iff_same_time
  (w : world) (m : machine) (reply : Reply.t) (first : Reply.item)
  (others : list Reply.item) :
  truthy (trim (App.prompt (app m))) = true ->
  generate_reply w (request_of (app m)) = Fulfilled reply ->
  Reply.data reply = first :: others ->
  let r1 := exec w (generateImage (app m)) m in
  let r2 := exec w (generateImage (app (final r1))) (final r1) in
  exists older newer,
    App.generatedImages (app (final r2))
    = newer :: older :: App.generatedImages (app m)
    /\ GeneratedImage.id older = toString (clock m (ticks m))
    /\ GeneratedImage.id newer = toString (clock m (2 + ticks m))
    /\ (GeneratedImage.id newer = GeneratedImage.id older
        <-> clock m (2 + ticks m) = clock m (ticks m)).
Proof.
  intros Hprompt Hreply Hdata r1 r2. subst r2 r1.
  rewrite (exec_generate_success w m Hprompt Hreply Hdata).
  cbn [final].
  match goal with
  | |- context [exec w (generateImage (app ?m1)) ?m1] =>
      rewrite (exec_generate_success w m1 (reply := reply)
                 (first := first) (others := others));
        [|exact Hprompt|exact Hreply|exact Hdata]
  end.
  eexists _, _. split; [reflexivity|]. cbn.
  split; [reflexivity|]. split; [reflexivity|].
  split; [apply toString_injective | now intros ->].
Qed.

Lemma consecutive_images_share_id_iff_same_time_witness :
  exists older newer,
    App.generatedImages
      (app (final
              (exec good_world
                 (generateImage
                    (app (final (exec good_world (generateImage fox_state)
                                   fox_machine))))
                 (final (exec good_world (generateImage fox_state)
                           fox_machine)))))
    = [newer; older]
    /\ GeneratedImage.id older = lit "1700000000000"
    /\ GeneratedImage.id newer = lit "1700000000002".
Proof.
  destruct (consecutive_images_share_id_iff_same_time good_world fox_machine
              (reply := one_image) eq_refl eq_refl eq_refl)
    as [older [newer [Himages [Hold [Hnew _]]]]].
  exists older, newer. repeat split; assumption.
Defined.

(** ** The handlers and their pieces *)

Lemma generateImage_cut (st : App.state) :
  generateImage st
  = if negb (truthy (trim (App.prompt st))) then
      perform (ToastError msg_enter_prompt)
    else
      Do (SetState (setGenerating true))
        (fun _ => Await (AiGenerateImage (request_of st)) (generate_after st)).
Proof. reflexivity. Qed.

Lemma downloadImage_cut (imageUrl prompt : jsstring) :
  downloadImage imageUrl prompt = Await (Fetch imageUrl) (fetch_after prompt).
Proof. reflexivity. Qed.

(** The end of a download touches the browser only. *)
Lemma download_rest_quiet (p : jsstring) (blob : Blob) (m : machine) :
  let a := advance (download_rest p blob) m in
  rest a = Finished tt
  /\ app (reached a) = app m
  /\ auth (reached a) = auth m
  /\ clock (reached a) = clock m
  /\ ticks (reached a) = ticks m
  /\ requests (emitted a) = []
  /\ toasts (emitted a) = [Success msg_downloaded].
Proof. repeat split. Qed.

(** On a steady state, [step] does what [happened] says. *)
Lemma step_happened (clk : nat -> Z) (l : label) (s s' : system) :
  steady clk s -> step l s = Some s' -> happened l s s'.
Proof.
  intros [Hshaped [Hobs _]] Hstep.
  assert (Hparked : forall i c, nth_error (pending s) i = Some c -> shaped c)
    by (intros i c Hc; eapply Forall_nth_error; eauto).
  destruct l as [v|v|v| |i| |state|i r|i r|i r]; cbn in Hstep.
  - injection Hstep as <-. apply h_typed.
  - injection Hstep as <-. apply h_size.
  - injection Hstep as <-. apply h_quality.
  - injection Hstep as <-. rewrite generateImage_cut.
    destruct (truthy (trim (App.prompt (app (mach s))))) eqn:Hprompt.
    + now apply h_asked.
    + now apply h_refused.
  - destruct (nth_error (images s) i) as [image|] eqn:Himage; [|discriminate].
    injection Hstep as <-. now apply h_download.
  - injection Hstep as <-. apply h_signed_out.
  - injection Hstep as <-.
    unfold notify, notified. rewrite Hobs. apply h_notified.
  - unfold settle in Hstep.
    destruct (nth_error (pending s) i) as [c|] eqn:Hc; [|discriminate].
    destruct (Hparked i c Hc); cbn in Hstep; try discriminate.
    injection Hstep as <-.
    destruct r as [reply|]; [|exact (h_generate_rejected i s Hc)].
    destruct (Reply.data reply) as [|first others] eqn:Hdata.
    + pose proof (h_generate_empty i reply s Hc Hdata) as Hh.
      unfold launch, generate_after. cbn. rewrite Hdata. exact Hh.
    + pose proof (h_generate_added i reply s Hc Hdata) as Hh.
      unfold launch, generate_after. cbn. rewrite Hdata. exact Hh.
  - unfold settle in Hstep.
    destruct (nth_error (pending s) i) as [c|] eqn:Hc; [|discriminate].
    destruct (Hparked i c Hc); cbn in Hstep; try discriminate.
    injection Hstep as <-.
    destruct r as [response|].
    + exact (h_fetch_fulfilled i response s Hc).
    + exact (h_fetch_rejected i s Hc).
  - unfold settle in Hstep.
    destruct (nth_error (pending s) i) as [c|] eqn:Hc; [|discriminate].
    destruct (Hparked i c Hc); cbn in Hstep; try discriminate.
    injection Hstep as <-.
    destruct r as [blob|].
    + exact (h_blob_fulfilled i blob s Hc).
    + exact (h_blob_rejected i s Hc).
Qed.

(** ** Steady states *)

Lemma steady_boot (clk : nat -> Z) : steady clk (boot clk).
Proof. repeat split. constructor. Qed.

Lemma steady_happened (clk : nat -> Z) (l : label) (s s' : system) :
  steady clk s -> happened l s s' -> steady clk s'.
Proof.
  intros [Hshaped [Hobs Hclk]] Hh.
  destruct Hh; unfold steady, moved, kept; cbn;
    (split; [|split; assumption]); auto using Forall_remove_nth.
  - apply Forall_app. split; [assumption|].
    constructor; [|constructor]. now apply shaped_generate.
  - apply Forall_app. split; [assumption|].
    constructor; [|constructor]. apply shaped_fetch.
  - apply Forall_app. split; [now apply Forall_remove_nth|].
    constructor; [|constructor]. apply shaped_blob.
Qed.

Lemma run_app (ls1 ls2 : list label) (s : system) :
  run (ls1 ++ ls2) s
  = match run ls1 s with
    | Some s1 => run ls2 s1
    | None => None
    end.
Proof.
  revert s. induction ls1 as [|l ls1 IH]; intros s; cbn; [reflexivity|].
  destruct (step l s); [apply IH | reflexivity].
Qed.

(** Induction over the states the mounted component can reach, with the
    steps that led there. *)
Lemma reachable_induction (clk : nat -> Z)
  (P : list label -> system -> Prop) :
  P [] (boot clk) ->
  (forall ls l s s',
     steady clk s -> P ls s -> happened l s s' -> P (ls ++ [l]) s') ->
  forall ls s, run ls (boot clk) = Some s -> steady clk s /\ P ls s.
Proof.
  intros Hboot Hstep ls.
  induction ls as [|l ls IH] using rev_ind; intros s Hrun.
  - injection Hrun as <-. split; [apply steady_boot | exact Hboot].
  - rewrite run_app in Hrun.
    destruct (run ls (boot clk)) as [s1|]; [|discriminate].
    destruct (IH s1 eq_refl) as [Hsteady HP].
    cbn in Hrun. destruct (step l s1) as [s2|] eqn:Hs; [|discriminate].
    injection Hrun as <-.
    pose proof (step_happened l Hsteady Hs) as Hh.
    split; [eapply steady_happened; eauto | eapply Hstep; eauto].
Qed.

Lemma ui_run_app (ls1 ls2 : list label) (s : system) :
  ui_run (ls1 ++ ls2) s
  = match ui_run ls1 s with
    | Some s1 => ui_run ls2 s1
    | None => None
    end.
Proof.
  revert s. induction ls1 as [|l ls1 IH]; intros s; cbn; [reflexivity|].
  destruct (ui_step l s); [apply IH | reflexivity].
Qed.

(** A run through the view is a run. *)
Lemma ui_run_is_run (ls : list label) (s s' : system) :
  ui_run ls s = Some s' -> run ls s = Some s'.
Proof.
  revert s. induction ls as [|l ls IH]; intros s Hrun; cbn in *;
    [exact Hrun|].
  unfold ui_step in Hrun.
  destruct (ui_enabled l s); [|discriminate].
  destruct (step l s) as [s1|]; [now apply IH | discriminate].
Qed.

(** Induction over the states reached through the view. *)
Lemma ui_reachable_induction (clk : nat -> Z) (P : system -> Prop) :
  P (boot clk) ->
  (forall l s s',
     steady clk s -> P s -> ui_enabled l s = true -> happened l s s' ->
     P s') ->
  forall ls s, ui_run ls (boot clk) = Some s -> steady clk s /\ P s.
Proof.
  intros Hboot Hstep ls.
  induction ls as [|l ls IH] using rev_ind; intros s Hrun.
  - injection Hrun as <-. split; [apply steady_boot | exact Hboot].
  - rewrite ui_run_app in Hrun.
    destruct (ui_run ls (boot clk)) as [s1|]; [|discriminate].
    destruct (IH s1 eq_refl) as [Hsteady HP].
    cbn in Hrun. unfold ui_step in Hrun.
    destruct (ui_enabled l s1) eqn:Hen; [|discriminate].
    destruct (step l s1) as [s2|] eqn:Hs; [|discriminate].
    injection Hrun as <-.
    pose proof (step_happened l Hsteady Hs) as Hh.
    split; [eapply steady_happened; eauto | eapply Hstep; eauto].
Qed.

Lemma trim_idempotent (s : jsstring) : trim (trim s) = trim s.
Proof.
  unfold trim at 1.
  destruct (trim_start_split s) as [_ [_ [_ Hstart]]].
  destruct (trim_end_split (trim_start s)) as [_ [_ [_ Hend]]].
  rewrite trim_start_clean by (apply trim_end_keeps_start, Hstart).
  now apply trim_end_clean.
Qed.

Lemma requests_app (h1 h2 : list obs) :
  requests (h1 ++ h2) = requests h1 ++ requests h2.
Proof. apply flat_map_app. Qed.

Lemma toasts_app (h1 h2 : list obs) :
  toasts (h1 ++ h2) = toasts h1 ++ toasts h2.
Proof. apply flat_map_app. Qed.

(** ** The form follows its inputs *)

Lemma input_form (a b : App.state) (l : label) :
  form_of a = form_of b -> form_of (input a l) = form_of (input b l).
Proof.
  unfold form_of. intros [= Hu Hl Hp Hs Hq].
  destruct l; cbn; congruence.
Qed.

Lemma happened_form (l : label) (s s' : system) :
  happened l s s' ->
  form_of (app (mach s')) = form_of (input (app (mach s)) l).
Proof.
  intros Hh. destruct Hh; reflexivity.
Qed.

(** X7.  In every state the mounted component can reach, the user and
    the loading flag are those of the provider's last notification (no
    user, and loading, before the first), and the prompt, the size and
    the quality are the last values the user gave (the empty prompt,
    1024x1024 and high before the first): no generation and no download,
    however it ends, changes any of the five.  So the loading screen is
    what is rendered exactly when the last notification said loading, or
    none came yet. *)
Theorem form_follows_inputs
  (clk : nat -> Z) (ls : list label) (s : system) :
  run ls (boot clk) = Some s ->
  form_of (app (mach s)) = form_of (inputs ls App.initial)
  /\ (render (app (mach s)) = View.LoadingScreen
      <-> App.loading (inputs ls App.initial) = true).
Proof.
  intros Hrun.
  assert (Hform : form_of (app (mach s)) = form_of (inputs ls App.initial)).
  { refine (proj2 (reachable_induction
                     (fun ls s => form_of (app (mach s))
                                  = form_of (inputs ls App.initial))
                     _ _ ls Hrun)).
    - reflexivity.
    - intros ls0 l s0 s1 _ IH Hh.
      unfold inputs. rewrite fold_left_app. cbn.
      rewrite (happened_form Hh). now apply input_form. }
  split; [exact Hform|].
  assert (Hload : App.loading (app (mach s))
                  = App.loading (inputs ls App.initial))
    by (unfold form_of in Hform; congruence).
  rewrite <- Hload. unfold render.
  destruct (App.loading (app (mach s))); split; congruence.
Qed.

Lemma form_follows_inputs_witness :
  run demo_run (boot wall_clock) = Some demo_end
  /\ form_of (app (mach demo_end))
     = (AuthState.user signed_in, false, lit "  a red fox ",
        lit "1024x1024", lit "high").
Proof.
  assert (Hrun : run demo_run (boot wall_clock) = Some demo_end)
    by (vm_compute; reflexivity).
  split; [exact Hrun|].
  exact (proj1 (form_follows_inputs wall_clock demo_run Hrun)).
Defined.

(** ** What the endpoint is asked *)

Lemma happened_requests (l : label) (s s' : system) :
  happened l s s' ->
  requests (history s') = requests (history s)
  \/ l = UserClicksGenerate
     /\ truthy (trim (App.prompt (app (mach s)))) = true
     /\ requests (history s')
        = requests (history s) ++ [request_of (app (mach s))].
Proof.
  intros Hh.
  destruct Hh; unfold moved; cbn [history]; rewrite requests_app;
    try (left; apply app_nil_r).
  right. repeat split. assumption.
Qed.

(** X8.  In every state the mounted component can reach, each request
    that was sent to the generation endpoint asks for one image and
    carries a prompt that is not empty and is already trimmed: the
    endpoint is never asked with a blank prompt. *)
Theorem requests_are_well_formed
  (clk : nat -> Z) (ls : list label) (s : system) :
  run ls (boot clk) = Some s ->
  Forall well_formed (requests (history s)).
Proof.
  intros Hrun.
  refine (proj2 (reachable_induction
                   (fun _ s => Forall well_formed (requests (history s)))
                   _ _ ls Hrun)).
  - constructor.
  - intros ls0 l s0 s1 _ IH Hh.
    destruct (happened_requests Hh) as [-> | [_ [Hprompt ->]]];
      [exact IH|].
    apply Forall_app. split; [exact IH|].
    constructor; [|constructor].
    repeat split; cbn; [exact Hprompt | apply trim_idempotent].
Qed.

Lemma requests_are_well_formed_witness :
  run demo_run (boot wall_clock) = Some demo_end
  /\ List.length (requests (history demo_end)) = 2
  /\ Forall well_formed (requests (history demo_end)).
Proof.
  assert (Hrun : run demo_run (boot wall_clock) = Some demo_end)
    by (vm_compute; reflexivity).
  split; [exact Hrun|]. split; [vm_compute; reflexivity|].
  exact (requests_are_well_formed wall_clock demo_run Hrun).
Defined.

(** ** Identifiers as keys *)

(** The images are built from readings of the clock that were taken one
    call after the other. *)
Lemma images_built_in_turn (clk : nat -> Z) (ls : list label) (s : system) :
  run ls (boot clk) = Some s ->
  exists ks,
    built_at clk ks (images s)
    /\ StronglySorted gt ks
    /\ Forall (fun k => S k < ticks (mach s)) ks.
Proof.
  intros Hrun.
  refine (proj2 (reachable_induction
                   (fun _ s =>
                      exists ks,
                        built_at clk ks (images s)
                        /\ StronglySorted gt ks
                        /\ Forall (fun k => S k < ticks (mach s)) ks)
                   _ _ ls Hrun)).
  - exists []. repeat split; constructor.
  - intros ls0 l s0 s1 [_ [_ Hclk]] [ks [[Hid Hts] [Hsorted Hbelow]]] Hh.
    assert (Hlater : forall n, ticks (mach s0) <= n ->
                               Forall (fun k => S k < n) ks).
    { intros n Hn. eapply Forall_impl; [|exact Hbelow].
      cbn. intros k Hk. lia. }
    destruct Hh; unfold images, moved, kept in *; cbn;
      try (exists ks; repeat split; try assumption; apply Hlater; lia).
    + exists (ticks (mach s0) :: ks). subst t_id t_ts. unfold built_at. cbn.
      rewrite Hid, Hts, Hclk. repeat split.
      * constructor; [exact Hsorted|].
        eapply Forall_impl; [|exact Hbelow]. cbn. intros k Hk. lia.
      * constructor; [lia | apply Hlater; lia].
Qed.

Lemma sorted_nodup (ks : list nat) : StronglySorted gt ks -> NoDup ks.
Proof.
  induction 1 as [|k ks Hs IH Hk]; constructor; [|exact IH].
  intros Hin. rewrite Forall_forall in Hk. specialize (Hk k Hin). lia.
Qed.

(** X9.  With a clock that gives a greater value at each reading, in
    every state the mounted component can reach the images have
    identifiers that differ two by two (so the keys of the cards do), and
    their times decrease along the list: the newest image is first. *)
Theorem image_ids_are_distinct
  (clk : nat -> Z) (ls : list label) (s : system) :
  advancing clk ->
  run ls (boot clk) = Some s ->
  NoDup (map GeneratedImage.id (images s))
  /\ StronglySorted Z.gt (map GeneratedImage.timestamp (images s)).
Proof.
  intros Hadv Hrun.
  destruct (images_built_in_turn clk ls Hrun)
    as [ks [[Hid Hts] [Hsorted _]]].
  rewrite Hid, Hts. split.
  - apply Injective_map_NoDup; [|now apply sorted_nodup].
    intros a b Hab. apply toString_injective in Hab.
    destruct (Nat.lt_trichotomy a b) as [Hlt | [-> | Hlt]];
      [|reflexivity|]; apply Hadv in Hlt; lia.
  - clear Hid Hts. induction Hsorted as [|k ks Hs IH Hk]; cbn; constructor.
    + exact IH.
    + rewrite Forall_map. eapply Forall_impl; [|exact Hk].
      cbn. intros j Hj. apply Z.lt_gt, Hadv. lia.
Qed.

Lemma wall_clock_advancing : advancing wall_clock.
Proof. unfold advancing, wall_clock. intros a b Hab. lia. Qed.

Lemma image_ids_are_distinct_witness :
  run longer_run (boot wall_clock) = Some longer_end
  /\ map GeneratedImage.id (images longer_end)
     = [lit "1700000000002"; lit "1700000000000"]
  /\ NoDup (map GeneratedImage.id (images longer_end)).
Proof.
  assert (Hrun : run longer_run (boot wall_clock) = Some longer_end)
    by (vm_compute; reflexivity).
  split; [exact Hrun|]. split; [vm_compute; reflexivity|].
  exact (proj1 (image_ids_are_distinct longer_run wall_clock_advancing Hrun)).
Defined.

(** ** Runs through the view *)

Lemma jsstring_eqb_eq (s t : jsstring) : jsstring_eqb s t = true -> s = t.
Proof.
  unfold jsstring_eqb. destruct (list_eq_dec N.eq_dec s t); congruence.
Qed.

Lemma offered_choice (v : jsstring) (l : list jsstring) :
  existsb (jsstring_eqb v) l = true -> In v l.
Proof.
  intros H. apply existsb_exists in H. destruct H as [x [Hin Heq]].
  apply jsstring_eqb_eq in Heq. now subst.
Qed.

Lemma cards_from_length (k : nat) (l : list GeneratedImage.t) :
  List.length (cards_from k l) = List.length l.
Proof.
  revert k. induction l as [|x l IH]; intros k; cbn;
    [reflexivity | now rewrite IH].
Qed.

(** What the view asks of the state before it lets the user act. *)
Lemma ui_enabled_user (l : label) (s : system) :
  ui_enabled l s = true ->
  match l with
  | UserTypes _ => App.generating (app (mach s)) = false
  | UserSelectsSize v =>
      App.generating (app (mach s)) = false /\ In v size_choices
  | UserSelectsQuality v =>
      App.generating (app (mach s)) = false /\ In v quality_choices
  | UserClicksGenerate =>
      App.generating (app (mach s)) = false
      /\ truthy (trim (App.prompt (app (mach s)))) = true
  | UserClicksDownload i => i < List.length (images s)
  | UserClicksSignOut => App.user (app (mach s)) <> None
  | _ => True
  end.
Proof.
  unfold ui_enabled, render, images.
  destruct l; try (intros _; exact I);
    destruct (App.loading (app (mach s))); try discriminate; cbn.
  - now intros ->%negb_true_iff.
  - intros [->%negb_true_iff H]%andb_prop.
    split; [reflexivity | exact (@offered_choice _ size_choices H)].
  - intros [->%negb_true_iff H]%andb_prop.
    split; [reflexivity | exact (@offered_choice _ quality_choices H)].
  - intros [-> ->%negb_false_iff]%negb_true_iff%orb_false_iff. now split.
  - destruct (App.generatedImages (app (mach s))) as [|g l]; cbn;
      [discriminate|].
    intros H%Nat.leb_le. rewrite cards_from_length in H. lia.
  - destruct (App.user (app (mach s))); discriminate.
Qed.

Lemma in_flight_remove (i : nat) (l : list (suspended unit))
  (c : suspended unit) :
  nth_error l i = Some c ->
  List.length (filter is_generate l)
  = List.length (filter is_generate (remove_nth i l))
    + (if is_generate c then 1 else 0).
Proof.
  revert i. induction l as [|x l IH]; intros [|i] Hc; cbn in Hc;
    try discriminate.
  - injection Hc as ->. cbn. destruct (is_generate c); cbn; lia.
  - cbn. specialize (IH i Hc). destruct (is_generate x); cbn; lia.
Qed.

Lemma none_in_flight_asks (st : App.state) (l : list (suspended unit)) :
  List.length (filter is_generate l) = 0 -> Forall (asks_for st) l.
Proof.
  induction l as [|c l IH]; cbn; [constructor|].
  destruct c as [X e k]. destruct e; cbn; try discriminate;
    intros H; constructor; cbn; auto.
Qed.

Lemma asks_for_same (st st' : App.state) (l : list (suspended unit)) :
  request_of st = request_of st' ->
  Forall (asks_for st) l -> Forall (asks_for st') l.
Proof.
  intros Heq H. eapply Forall_impl; [|exact H].
  intros [X e k]. destruct e; cbn; congruence.
Qed.

Lemma orderly_boot (clk : nat -> Z) : orderly (boot clk).
Proof.
  unfold orderly, offered. cbn.
  split; [reflexivity|]. split; [constructor|].
  split; [split; [now left | do 3 right; now left]|].
  split; [intros [] | constructor].
Qed.

Lemma refusal_is_not_failure :
  msg_enter_prompt <> msg_generate_failed
  /\ msg_enter_prompt <> msg_download_failed.
Proof.
  split; intros H; vm_compute in H; discriminate.
Qed.

Lemma orderly_happened (l : label) (s s' : system) :
  orderly s -> ui_enabled l s = true -> happened l s s' -> orderly s'.
Proof.
  intros [Hflight [Hasks [Hoffer [Htoast Hreq]]]] Hen Hh.
  apply ui_enabled_user in Hen.
  destruct refusal_is_not_failure as [Hne1 Hne2].
  assert (Hquiet : forall st,
             App.generating (app (mach s)) = false ->
             Forall (asks_for st) (pending s)).
  { intros st Hg. apply none_in_flight_asks.
    unfold in_flight in Hflight. now rewrite Hg in Hflight. }
  assert (Hlanded : forall i st,
             nth_error (pending s) i = Some (parked_generate st) ->
             List.length (filter is_generate (remove_nth i (pending s))) = 0).
  { intros i st Hi. apply in_flight_remove in Hi. cbn in Hi.
    unfold in_flight in Hflight.
    destruct (App.generating (app (mach s))); lia. }
  assert (Hother : forall i c,
             nth_error (pending s) i = Some c -> is_generate c = false ->
             List.length (filter is_generate (remove_nth i (pending s)))
             = in_flight s).
  { intros i c Hi Hc. apply in_flight_remove in Hi. rewrite Hc in Hi.
    unfold in_flight. lia. }
  destruct Hh; unfold orderly, offered, in_flight, moved, kept in *;
    cbn [mach pending history app with_app with_auth with_dom tick];
    rewrite ?toasts_app, ?requests_app, ?filter_app, ?length_app;
    cbn -[size_choices quality_choices In];
    rewrite ?app_nil_r, ?Nat.add_0_r.
  - repeat split; auto. tauto. tauto.
  - destruct Hen as [Hg Hv]. repeat split; auto; tauto.
  - destruct Hen as [Hg Hv]. repeat split; auto; tauto.
  - destruct Hen as [_ Hp]. congruence.
  - destruct Hen as [Hg _]. rewrite Hg in *.
    split; [lia|]. split; [|split; [exact Hoffer|split; [exact Htoast|]]].
    + apply Forall_app. split; [now apply Hquiet|].
      constructor; [reflexivity | constructor].
    + apply Forall_app. split; [exact Hreq|].
      constructor; [exact Hoffer | constructor].
  - repeat split; auto; try tauto.
    apply Forall_app. split; [exact Hasks|]. constructor; [exact I|constructor].
  - repeat split; auto; tauto.
  - repeat split; auto; tauto.
  - split; [eauto|].
    split; [apply Forall_remove_nth; exact Hasks|].
    split; [exact Hoffer|]. split; [|exact Hreq].
    rewrite in_app_iff. intros [Hin | [[= Heq] | []]]; auto.
  - split; [eauto|].
    split; [apply Forall_remove_nth; exact Hasks|].
    split; [exact Hoffer|]. split; [|exact Hreq].
    rewrite in_app_iff. intros [Hin | [[= Heq] | []]]; auto.
  - split; [eauto|].
    split; [apply Forall_remove_nth; exact Hasks|].
    split; [exact Hoffer|]. split; [|exact Hreq].
    rewrite in_app_iff. intros [Hin | [[=] | []]]; auto.
  - split; [rewrite <- Hflight; eapply Hother; eauto|].
    split; [apply Forall_remove_nth; exact Hasks|].
    split; [exact Hoffer|]. split; [|exact Hreq].
    rewrite in_app_iff. intros [Hin | [[= Heq] | []]]; auto.
  - split; [rewrite <- Hflight; eapply Hother; eauto|].
    split; [|tauto].
    apply Forall_app. split; [apply Forall_remove_nth; exact Hasks|].
    constructor; [exact I | constructor].
  - split; [rewrite <- Hflight; eapply Hother; eauto|].
    split; [apply Forall_remove_nth; exact Hasks|].
    split; [exact Hoffer|]. split; [|exact Hreq].
    rewrite in_app_iff. intros [Hin | [[= Heq] | []]]; auto.
  - split; [rewrite <- Hflight; eapply Hother; eauto|].
    split; [apply Forall_remove_nth; exact Hasks|].
    split; [exact Hoffer|]. split; [|exact Hreq].
    rewrite in_app_iff. intros [Hin | [[=] | []]]; auto.
Qed.

Lemma ui_reachable_orderly (clk : nat -> Z) (ls : list label) (s : system) :
  ui_run ls (boot clk) = Some s -> steady clk s /\ orderly s.
Proof.
  apply (@ui_reachable_induction clk orderly).
  - apply orderly_boot.
  - intros l s0 s1 _ IH Hen Hh. exact (orderly_happened IH Hen Hh).
Qed.

(** X10.  In every state reached through the view (the user acting only
    on controls that are on the page and not disabled), at most one
    generation is in flight, and the in-flight flag is up exactly when one
    is; the size and the quality, in the form and in every request that
    was sent, are among the choices the selects offer; and the
    notification that asks for a prompt was never shown, the button being
    disabled whenever [generateImage] would refuse the prompt. *)
Theorem one_generation_at_a_time
  (clk : nat -> Z) (ls : list label) (s : system) :
  ui_run ls (boot clk) = Some s ->
  in_flight s <= 1
  /\ (App.generating (app (mach s)) = true <-> in_flight s = 1)
  /\ In (App.size (app (mach s))) size_choices
  /\ In (App.quality (app (mach s))) quality_choices
  /\ Forall offered (requests (history s))
  /\ ~ In (Error msg_enter_prompt) (toasts (history s)).
Proof.
  intros Hrun.
  destruct (ui_reachable_orderly clk ls Hrun)
    as [_ [Hflight [_ [[Hsize Hquality] [Htoast Hreq]]]]].
  rewrite Hflight.
  destruct (App.generating (app (mach s)));
    repeat split; auto; try lia; discriminate.
Qed.

Lemma one_generation_at_a_time_witness :
  ui_run view_run (boot wall_clock) = Some view_parked
  /\ in_flight view_parked = 1
  /\ App.generating (app (mach view_parked)) = true.
Proof.
  assert (Hrun : ui_run view_run (boot wall_clock) = Some view_parked)
    by (vm_compute; reflexivity).
  split; [exact Hrun|]. split; [vm_compute; reflexivity|].
  destruct (one_generation_at_a_time wall_clock view_run Hrun)
    as [_ [Hflag _]].
  apply Hflag. vm_compute. reflexivity.
Defined.

(** X11.  In a state reached through the view, when a generation settles
    with at least one item, the image put in front has the URL of the
    first item and the trimmed prompt, the size and the quality that the
    form holds at that moment (the fields are disabled while the call is
    in flight), and no generation is in flight afterwards. *)
Theorem settled_image_shows_the_form
  (clk : nat -> Z) (ls : list label) (s s' : system) (i : nat)
  (reply : Reply.t) (first : Reply.item) (others : list Reply.item) :
  ui_run ls (boot clk) = Some s ->
  Reply.data reply = first :: others ->
  step (GenerateSettles i (Fulfilled reply)) s = Some s' ->
  exists g,
    images s' = g :: images s
    /\ GeneratedImage.url g = Reply.url first
    /\ GeneratedImage.prompt g = trim (App.prompt (app (mach s')))
    /\ GeneratedImage.size g = App.size (app (mach s'))
    /\ GeneratedImage.quality g = App.quality (app (mach s'))
    /\ App.generating (app (mach s')) = false
    /\ in_flight s' = 0.
Proof.
  intros Hrun Hdata Hstep.
  destruct (ui_reachable_orderly clk ls Hrun)
    as [Hsteady [Hflight [Hasks _]]].
  pose proof (step_happened _ Hsteady Hstep) as Hh.
  inversion Hh as [ | | | | | | | | |? st ? ? Hi Hnil
                   |? st ? first' others' ? Hi Hcons| | | | ]; subst.
  - congruence.
  - rewrite Hdata in Hcons. injection Hcons as <- <-.
    assert (Hreq : asks_for (app (mach s)) (parked_generate st))
      by (eapply Forall_nth_error; eauto).
    cbn in Hreq.
    injection Hreq as Hp Hs Hq.
    eexists. split; [reflexivity|]. cbn.
    repeat split; try assumption.
    apply in_flight_remove in Hi. cbn in Hi.
    unfold in_flight in *. cbn.
    destruct (App.generating (app (mach s))); lia.
Qed.

Lemma settled_image_shows_the_form_witness :
  exists g,
    images view_settled = [g]
    /\ GeneratedImage.prompt g = lit "a red fox"
    /\ in_flight view_settled = 0.
Proof.
  assert (Hrun : ui_run view_run (boot wall_clock) = Some view_parked)
    by (vm_compute; reflexivity).
  assert (Hstep : step (GenerateSettles 0 (Fulfilled one_image)) view_parked
                  = Some view_settled)
    by (vm_compute; reflexivity).
  destruct (@settled_image_shows_the_form wall_clock view_run view_parked
              view_settled 0 one_image _ _ Hrun eq_refl Hstep)
    as [g [Himages [_ [Hprompt [_ [_ [_ Hflight]]]]]]].
  exists g. split; [exact Himages|]. split; [|exact Hflight].
  rewrite Hprompt. vm_compute. reflexivity.
Defined.

(** ** Calls made past the view *)

Lemma click_parks (s : system) :
  truthy (trim (App.prompt (app (mach s)))) = true ->
  step UserClicksGenerate s
  = Some (moved (with_app (apply_setter (setGenerating true)))
            (fun l => l ++ [parked_generate (app (mach s))])
            [ Did (SetState (setGenerating true)) tt;
              Asked (AiGenerateImage (request_of (app (mach s)))) ] s).
Proof.
  intros Hprompt. cbn. rewrite generateImage_cut, Hprompt. reflexivity.
Qed.

Lemma settle_parked (i : nat) (st : App.state) (r : settled Reply.t)
  (s : system) :
  nth_error (pending s) i = Some (parked_generate st) ->
  step (GenerateSettles i r) s
  = Some (launch [Settled (AiGenerateImage (request_of st)) r]
            (generate_after st r) (unpark i s)).
Proof.
  intros Hi. cbn. unfold settle. rewrite Hi. reflexivity.
Qed.

Lemma nth_error_middle (A : Type) (l l' : list A) (x : A) :
  nth_error (l ++ x :: l') (List.length l) = Some x.
Proof.
  induction l as [|y l IH]; cbn; auto.
Qed.

Lemma remove_nth_middle (A : Type) (l l' : list A) (x : A) :
  remove_nth (List.length l) (l ++ x :: l') = l ++ l'.
Proof.
  induction l as [|y l IH]; cbn; [reflexivity | now rewrite IH].
Qed.

(** X12.  [generateImage] itself does not look at the in-flight flag:
    called twice before any reply, from a state whose prompt is not blank,
    it sends the same request twice; and when the first of the two
    settles, however it does, the flag is lowered although the second is
    still in flight. *)
Theorem second_call_outlives_the_flag (s : system) (r : settled Reply.t) :
  truthy (trim (App.prompt (app (mach s)))) = true ->
  exists s',
    run [ UserClicksGenerate; UserClicksGenerate;
          GenerateSettles (List.length (pending s)) r ] s = Some s'
    /\ requests (history s')
       = requests (history s)
         ++ [request_of (app (mach s)); request_of (app (mach s))]
    /\ App.generating (app (mach s')) = false
    /\ in_flight s' = S (in_flight s)
    /\ exists st,
         pending s' = pending s ++ [parked_generate st]
         /\ request_of st = request_of (app (mach s)).
Proof.
  intros Hprompt. cbn [run].
  rewrite (click_parks s Hprompt).
  match goal with
  | |- context [step UserClicksGenerate ?s1] =>
      rewrite (click_parks s1 Hprompt)
  end.
  match goal with
  | |- context [step (GenerateSettles ?i r) ?s2] =>
      rewrite (@settle_parked i (app (mach s)) r s2)
  end.
  2: { unfold moved. cbn [pending]. rewrite <- app_assoc. cbn [List.app].
       apply nth_error_middle. }
  eexists. split; [reflexivity|].
  unfold launch, unpark, moved, in_flight, generate_after.
  cbn [mach pending history].
  rewrite <- (app_assoc (pending s)). cbn [List.app].
  rewrite remove_nth_middle.
  assert (Hfinished :
            forall m,
              let a := advance (generate_after (app (mach s)) r) m in
              rest a = Finished tt
              /\ App.generating (app (reached a)) = false
              /\ requests (emitted a) = []).
  { intros m. unfold generate_after.
    destruct r as [reply|]; cbn; [|repeat split].
    destruct (Reply.data reply); cbn; repeat split. }
  unfold generate_after in Hfinished.
  match goal with
  | |- context [advance ?p ?m] =>
      destruct (Hfinished m) as [Hrest [Hflag Hnone]]
  end.
  rewrite Hrest, Hflag.
  rewrite !requests_app. unfold requests in *.
  cbn [flat_map request_sent List.app]. rewrite Hnone.
  rewrite filter_app, length_app. cbn.
  repeat split; try lia.
  - now rewrite !app_nil_r, <- app_assoc.
  - eexists. split; reflexivity.
Qed.

Lemma second_call_outlives_the_flag_witness :
  exists s',
    run [ UserClicksGenerate; UserClicksGenerate;
          GenerateSettles (List.length (pending view_parked)) Rejected ]
      view_parked = Some s'
    /\ App.generating (app (mach s')) = false
    /\ in_flight s' = S (in_flight view_parked).
Proof.
  assert (Hprompt : truthy (trim (App.prompt (app (mach view_parked)))) = true)
    by (vm_compute; reflexivity).
  destruct (second_call_outlives_the_flag view_parked Rejected Hprompt)
    as [s' [Hrun [_ [Hflag [Hflight _]]]]].
  exists s'. repeat split; assumption.
Defined.

(** X13.  An image records what the call that made it saw, not what the
    form holds when the reply comes: if the prompt, the size and the
    quality are set anew between the call and its reply, the image put in
    front still has the trimmed prompt, the size and the quality of the
    state in which [generateImage] was called, and the form keeps the new
    values. *)
Theorem image_keeps_what_its_call_saw
  (s : system) (v z q : jsstring) (reply : Reply.t) (first : Reply.item)
  (others : list Reply.item) :
  truthy (trim (App.prompt (app (mach s)))) = true ->
  Reply.data reply = first :: others ->
  exists s' g,
    run [ UserClicksGenerate; UserTypes v; UserSelectsSize z;
          UserSelectsQuality q;
          GenerateSettles (List.length (pending s)) (Fulfilled reply) ] s
    = Some s'
    /\ images s' = g :: images s
    /\ GeneratedImage.url g = Reply.url first
    /\ GeneratedImage.prompt g = trim (App.prompt (app (mach s)))
    /\ GeneratedImage.size g = App.size (app (mach s))
    /\ GeneratedImage.quality g = App.quality (app (mach s))
    /\ App.prompt (app (mach s')) = v
    /\ App.size (app (mach s')) = z
    /\ App.quality (app (mach s')) = q.
Proof.
  intros Hprompt Hdata. cbn [run].
  rewrite (click_parks s Hprompt). cbn [step].
  match goal with
  | |- context [settle ?i ?f ?s2] =>
      change (settle i f s2)
        with (step (GenerateSettles i (Fulfilled reply)) s2);
      rewrite (@settle_parked i (app (mach s)) (Fulfilled reply) s2)
  end.
  2: { unfold launch, moved. cbn. apply nth_error_snoc_last. }
  eexists. eexists. split; [reflexivity|].
  unfold images, launch, unpark, moved, generate_after. cbn.
  rewrite Hdata. cbn. repeat split.
Qed.

Lemma image_keeps_what_its_call_saw_witness :
  exists s' g,
    run [ UserClicksGenerate; UserTypes (lit "a blue whale");
          UserSelectsSize (lit "1792x1024"); UserSelectsQuality (lit "low");
          GenerateSettles (List.length (pending view_settled))
            (Fulfilled one_image) ] view_settled
    = Some s'
    /\ images s' = g :: images view_settled
    /\ GeneratedImage.prompt g = lit "a red fox"
    /\ App.prompt (app (mach s')) = lit "a blue whale".
Proof.
  assert (Hprompt : truthy (trim (App.prompt (app (mach view_settled)))) = true)
    by (vm_compute; reflexivity).
  destruct (@image_keeps_what_its_call_saw view_settled (lit "a blue whale")
              (lit "1792x1024") (lit "low") one_image _ _ Hprompt eq_refl)
    as [s' [g [Hrun [Himages [_ [Hp [_ [_ [Hv _]]]]]]]]].
  exists s', g. split; [exact Hrun|]. split; [exact Himages|].
  split; [|exact Hv]. rewrite Hp. vm_compute. reflexivity.
Defined.

(** ** What is rendered *)

Lemma cards_from_fields (k : nat) (l : list GeneratedImage.t) :
  map View.key (cards_from k l) = map GeneratedImage.id l
  /\ map View.position (cards_from k l) = seq k (List.length l)
  /\ map View.onDownload (cards_from k l)
     = map (fun image =>
              downloadImage (GeneratedImage.url image)
                (GeneratedImage.prompt image)) l.
Proof.
  revert k. induction l as [|x l IH]; intros k; cbn; [repeat split|].
  destruct (IH (S k)) as [-> [-> ->]]. repeat split.
Qed.

(** X14.  What [App] renders.  While loading, the loading screen and
    nothing else.  Otherwise the page, on which the gallery is shown
    exactly when there is an image and the empty state exactly when there
    is none and no generation is in flight: never both, and neither while
    the first generation is in flight.  The gallery has one card for each
    image, in the order of the images, the count of the images for badge;
    the card of an image has its identifier for key, its rank for
    position, and a button that downloads its URL under the name made
    from its prompt.  The greeting is shown exactly when there is a
    user. *)
Theorem render_gallery_or_empty_state (st : App.state) :
  match render st with
  | View.LoadingScreen => App.loading st = true
  | View.Page welcome controls creations empty =>
      App.loading st = false
      /\ (creations = None <-> App.generatedImages st = [])
      /\ (empty = true
          <-> App.generatedImages st = [] /\ App.generating st = false)
      /\ (empty = true -> creations = None)
      /\ (forall g,
            creations = Some g ->
            View.count_badge g = List.length (App.generatedImages st)
            /\ List.length (View.cards g)
               = List.length (App.generatedImages st)
            /\ map View.key (View.cards g)
               = map GeneratedImage.id (App.generatedImages st)
            /\ map View.position (View.cards g)
               = seq 0 (List.length (App.generatedImages st))
            /\ map View.onDownload (View.cards g)
               = map (fun image =>
                        downloadImage (GeneratedImage.url image)
                          (GeneratedImage.prompt image))
                   (App.generatedImages st))
      /\ (welcome = None <-> App.user st = None)
  end.
Proof.
  unfold render.
  destruct (App.loading st); [reflexivity|].
  split; [reflexivity|].
  assert (Hwelcome : match App.user st with
                     | Some u => Some (User.email u)
                     | None => None
                     end = None <-> App.user st = None)
    by (destruct (App.user st); split; congruence).
  destruct (App.generatedImages st) as [|x l] eqn:Himages;
    cbn [List.length Nat.ltb Nat.leb Nat.eqb andb].
  - split; [tauto|]. split; [|split; [reflexivity|split; [|exact Hwelcome]]].
    + rewrite negb_true_iff. tauto.
    + intros g [=].
  - split; [split; discriminate|].
    split; [split; [discriminate | intros [[=] _]]|].
    split; [discriminate|]. split; [|exact Hwelcome].
    intros g [= <-]. cbn [View.count_badge View.cards].
    split; [reflexivity|]. split; [exact (cards_from_length 0 (x :: l))|].
    exact (cards_from_fields 0 (x :: l)).
Qed.

(** X15.  The button and the guard of [generateImage] agree.  The
    button is disabled exactly when a generation is in flight or the
    prompt is blank; so when the page shows it enabled, a call of
    [generateImage] from that state sends its request, the one for what
    the form holds, and does not show the notification that asks for a
    prompt. *)
Theorem enabled_button_sends_a_request
  (w : world) (m : machine) (welcome : option jsstring)
  (controls : View.form) (creations : option View.gallery) (empty : bool) :
  render (app m) = View.Page welcome controls creations empty ->
  (View.button_disabled controls = true
   <-> App.generating (app m) = true
       \/ truthy (trim (App.prompt (app m))) = false)
  /\ (View.button_disabled controls = false ->
      let r := exec w (generateImage (app m)) m in
      App.generating (app m) = false
      /\ requests (trace r) = [request_of (app m)]
      /\ ~ In (Error msg_enter_prompt) (toasts (trace r))).
Proof.
  unfold render. destruct (App.loading (app m)); [discriminate|].
  intros [= _ <- _ _]. cbn [View.button_disabled].
  split.
  - rewrite orb_true_iff, negb_true_iff. tauto.
  - intros [Hflag Hprompt%negb_false_iff]%orb_false_iff.
    split; [exact Hflag|].
    destruct refusal_is_not_failure as [Hne _].
    destruct (generate_cases w m)
      as [Hblank | [_ [Hrej | [reply [Hreply Hdata]]]]].
    + cbn in Hblank. congruence.
    + rewrite (exec_generate_rejected w m Hprompt Hrej).
      split; [reflexivity|]. intros [[= H] | []]; now apply Hne.
    + destruct Hdata as [Hnil | [first [others Hcons]]].
      * rewrite (exec_generate_empty w m Hprompt Hreply Hnil).
        split; [reflexivity|]. intros [[= H] | []]; now apply Hne.
      * rewrite (exec_generate_success w m Hprompt Hreply Hcons).
        split; [reflexivity|]. intros [[=] | []].
Qed.

Lemma enabled_button_sends_a_request_witness :
  requests (trace (exec good_world (generateImage (app ready_machine))
                     ready_machine))
  = [request_of (app ready_machine)].
Proof.
  destruct (render (app ready_machine)) as [|welcome controls creations empty]
    eqn:Hrender; [discriminate|].
  destruct (enabled_button_sends_a_request good_world ready_machine Hrender)
    as [_ Hsend].
  apply Hsend.
  injection Hrender as _ <- _ _. reflexivity.
Defined.

(** X16.  The effect of [App] and its cleanup, with a provider that has
    other observers: mounting adds one observer, under the handle the
    effect returns; tearing down removes that one and leaves the others
    as they were, as long as the handle the provider hands out is not one
    it already gave. *)
Theorem mounting_spares_other_observers (m : machine) :
  Forall (fun o => fst o <> issued (auth m)) (observers (auth m)) ->
  let a := mount m in
  let b := unmount (issued (auth m)) (reached a) in
  rest a = Finished (issued (auth m))
  /\ observers (auth (reached a))
     = (issued (auth m), authObserver) :: observers (auth m)
  /\ rest b = Finished tt
  /\ observers (auth (reached b)) = observers (auth m)
  /\ app (reached b) = app m.
Proof.
  intros Hfresh a b.
  destruct (mount_then_unmount m Hfresh) as [Hrest [Hobs Hback]].
  repeat split; assumption.
Qed.

Lemma mounting_spares_other_observers_witness :
  observers (auth (reached (mount mounted_machine)))
  = [(1, authObserver); (0, authObserver)]
  /\ observers
       (auth (reached (unmount 1 (reached (mount mounted_machine)))))
     = [(0, authObserver)].
Proof.
  assert (Hfresh : Forall (fun o => fst o <> issued (auth mounted_machine))
                     (observers (auth mounted_machine)))
    by (repeat constructor; cbn; lia).
  destruct (mounting_spares_other_observers mounted_machine Hfresh)
    as [_ [Hobs [_ [Hback _]]]].
  split; [exact Hobs | exact Hback].
Defined.

(** ** The session observer, with any provider *)

(** [step_happened], for a provider that may hold observers of other
    components beside [authObserver]. *)
Lemma step_happened_among (l : label) (s s' : system) :
  Forall shaped (pending s) ->
  (forall state, notified state (auth (mach s)) = authObserver state) ->
  step l s = Some s' ->
  happened l s s'.
Proof.
  intros Hshaped Hnotified Hstep.
  assert (Hparked : forall i c, nth_error (pending s) i = Some c -> shaped c)
    by (intros i c Hc; eapply Forall_nth_error; eauto).
  destruct l as [v|v|v| |i| |state|i r|i r|i r]; cbn in Hstep.
  - injection Hstep as <-. apply h_typed.
  - injection Hstep as <-. apply h_size.
  - injection Hstep as <-. apply h_quality.
  - injection Hstep as <-. rewrite generateImage_cut.
    destruct (truthy (trim (App.prompt (app (mach s))))) eqn:Hprompt.
    + now apply h_asked.
    + now apply h_refused.
  - destruct (nth_error (images s) i) as [image|] eqn:Himage; [|discriminate].
    injection Hstep as <-. now apply h_download.
  - injection Hstep as <-. apply h_signed_out.
  - injection Hstep as <-.
    unfold notify. rewrite Hnotified. apply h_notified.
  - unfold settle in Hstep.
    destruct (nth_error (pending s) i) as [c|] eqn:Hc; [|discriminate].
    destruct (Hparked i c Hc); cbn in Hstep; try discriminate.
    injection Hstep as <-.
    destruct r as [reply|]; [|exact (h_generate_rejected i s Hc)].
    destruct (Reply.data reply) as [|first others] eqn:Hdata.
    + pose proof (h_generate_empty i reply s Hc Hdata) as Hh.
      unfold launch, generate_after. cbn. rewrite Hdata. exact Hh.
    + pose proof (h_generate_added i reply s Hc Hdata) as Hh.
      unfold launch, generate_after. cbn. rewrite Hdata. exact Hh.
  - unfold settle in Hstep.
    destruct (nth_error (pending s) i) as [c|] eqn:Hc; [|discriminate].
    destruct (Hparked i c Hc); cbn in Hstep; try discriminate.
    injection Hstep as <-.
    destruct r as [response|].
    + exact (h_fetch_fulfilled i response s Hc).
    + exact (h_fetch_rejected i s Hc).
  - unfold settle in Hstep.
    destruct (nth_error (pending s) i) as [c|] eqn:Hc; [|discriminate].
    destruct (Hparked i c Hc); cbn in Hstep; try discriminate.
    injection Hstep as <-.
    destruct r as [blob|].
    + exact (h_blob_fulfilled i blob s Hc).
    + exact (h_blob_rejected i s Hc).
Qed.

(** No step registers or unregisters an observer, and every call a step
    parks is one of the two handlers. *)
Lemma happened_keeps_observers (l : label) (s s' : system) :
  happened l s s' ->
  observers (auth (mach s')) = observers (auth (mach s))
  /\ (Forall shaped (pending s) -> Forall shaped (pending s')).
Proof.
  intros Hh.
  destruct Hh; unfold moved, kept; cbn; (split; [reflexivity|]);
    intros Hshaped; auto using Forall_remove_nth.
  - apply Forall_app. split; [assumption|].
    constructor; [|constructor]. now apply shaped_generate.
  - apply Forall_app. split; [assumption|].
    constructor; [|constructor]. apply shaped_fetch.
  - apply Forall_app. split; [now apply Forall_remove_nth|].
    constructor; [|constructor]. apply shaped_blob.
Qed.

(** With foreign observers beside it, [authObserver] is the one whose
    calls reach the component. *)
Lemma notified_among (state : AuthState.t) (h : subscription) (p : provider)
  (others : list (subscription * (AuthState.t -> list setter))) :
  Forall foreign others ->
  observers p = (h, authObserver) :: others ->
  notified state p = authObserver state.
Proof.
  intros Hforeign Hobs.
  assert (Hnone : flat_map (fun o => snd o state) others = []).
  { clear Hobs.
    induction Hforeign as [|[h' cb] l Ho Hl IH]; cbn; [reflexivity|].
    unfold foreign in Ho. cbn in Ho. now rewrite Ho, IH. }
  unfold notified. rewrite Hobs. cbn [flat_map snd].
  rewrite Hnone. apply app_nil_r.
Qed.

(** From the mounted component on, the observers stay those that the
    mount left. *)
Lemma run_keeps_observers (m0 : machine) (ls : list label) (s0 s : system) :
  Forall foreign (observers (auth m0)) ->
  Forall shaped (pending s0) ->
  observers (auth (mach s0))
  = (issued (auth m0), authObserver) :: observers (auth m0) ->
  run ls s0 = Some s ->
  Forall shaped (pending s)
  /\ observers (auth (mach s))
     = (issued (auth m0), authObserver) :: observers (auth m0).
Proof.
  intros Hforeign. revert s0.
  induction ls as [|l ls IH]; intros s0 Hshaped Hobs Hrun; cbn in Hrun.
  - injection Hrun as <-. now split.
  - destruct (step l s0) as [s1|] eqn:Hstep; [|discriminate].
    assert (Hh : happened l s0 s1).
    { apply step_happened_among; [exact Hshaped | | exact Hstep].
      intros state. eapply notified_among; eauto. }
    destruct (happened_keeps_observers Hh) as [Hsame Hkeeps].
    apply (IH s1); [now apply Hkeeps | now rewrite Hsame | exact Hrun].
Qed.

Lemma unsubscribe_own (h : subscription) (cb : AuthState.t -> list setter)
  (others : list (subscription * (AuthState.t -> list setter))) :
  Forall (unused h) others ->
  filter (fun o => negb (Nat.eqb (fst o) h)) ((h, cb) :: others) = others.
Proof.
  intros Hfresh. cbn. rewrite Nat.eqb_refl. cbn.
  induction Hfresh as [|[h' cb'] l Ho Hl IH]; cbn; [reflexivity|].
  unfold unused in Ho. cbn in Ho.
  destruct (Nat.eqb_spec h' h); [contradiction|].
  cbn. f_equal. exact IH.
Qed.

(** C9.  Whatever observers the provider already holds (observers of
    other components, under handles other than the next it gives), the
    effect of [App] registers [authObserver] with it, once, and returns
    what the registration returned.  In every state the component can
    reach from there, the observers are still those the mount left; a
    notification sets the user and the loading flag to the values it
    carries and leaves the rest of the state alone; and the teardown,
    which calls what the effect returned, unregisters the observer that
    the mount registered and no other: the provider is left with the
    observers it had before the mount. *)
Theorem session_observer_mirrors_provider
  (m0 : machine) (ls : list label) (s : system) (state : AuthState.t) :
  Forall (unused (issued (auth m0))) (observers (auth m0)) ->
  Forall foreign (observers (auth m0)) ->
  run ls (start m0) = Some s ->
  (exists returned,
     emitted (mount m0) = [Did (OnAuthStateChanged authObserver) returned]
     /\ rest (mount m0) = Finished returned
     /\ observers (auth (reached (mount m0)))
        = (returned, authObserver) :: observers (auth m0)
     /\ app (reached (mount m0)) = app m0
     /\ mach (start m0) = reached (mount m0)
     /\ observers (auth (mach s))
        = (returned, authObserver) :: observers (auth m0)
     /\ exists b,
          teardown (mount m0) (mach s) = Some b
          /\ emitted b = [Did (Unsubscribe returned) tt]
          /\ rest b = Finished tt
          /\ observers (auth (reached b)) = observers (auth m0)
          /\ app (reached b) = app (mach s))
  /\ (exists s',
        step (ProviderNotifies state) s = Some s'
        /\ App.user (app (mach s')) = AuthState.user state
        /\ App.loading (app (mach s')) = AuthState.isLoading state
        /\ App.prompt (app (mach s')) = App.prompt (app (mach s))
        /\ App.size (app (mach s')) = App.size (app (mach s))
        /\ App.quality (app (mach s')) = App.quality (app (mach s))
        /\ App.generating (app (mach s')) = App.generating (app (mach s))
        /\ images s' = images s
        /\ observers (auth (mach s')) = observers (auth (mach s))).
Proof.
  intros Hfresh Hforeign Hrun.
  assert (Hstart : observers (auth (mach (start m0)))
                   = (issued (auth m0), authObserver) :: observers (auth m0))
    by reflexivity.
  destruct (@run_keeps_observers m0 ls (start m0) s Hforeign
              (Forall_nil _) Hstart Hrun) as [_ Hobs].
  split.
  - exists (issued (auth m0)).
    do 5 (split; [reflexivity|]). split; [exact Hobs|].
    eexists. split; [reflexivity|].
    split; [reflexivity|]. split; [reflexivity|]. split; [|reflexivity].
    change (filter (fun o => negb (Nat.eqb (fst o) (issued (auth m0))))
              (observers (auth (mach s)))
            = observers (auth m0)).
    rewrite Hobs. exact (unsubscribe_own authObserver Hfresh).
  - eexists. split; [reflexivity|].
    unfold images, notify. cbn [mach].
    rewrite (@notified_among state _ _ _ Hforeign Hobs).
    repeat split.
Qed.

Lemma session_observer_mirrors_provider_witness :
  run demo_run (start shared_machine) = Some shared_end
  /\ map fst (observers (auth (mach shared_end))) = [1; 0]
  /\ App.user (app (mach shared_end)) = AuthState.user signed_in
  /\ App.loading (app (mach shared_end)) = false
  /\ exists b,
       teardown (mount shared_machine) (mach shared_end) = Some b
       /\ emitted b = [Did (Unsubscribe 1) tt]
       /\ map fst (observers (auth (reached b))) = [0].
Proof.
  assert (Hfresh : Forall (unused (issued (auth shared_machine)))
                     (observers (auth shared_machine)))
    by (repeat constructor; unfold unused; cbn; lia).
  assert (Hforeign : Forall foreign (observers (auth shared_machine)))
    by (repeat constructor; intros state; reflexivity).
  assert (Hrun : run demo_run (start shared_machine) = Some shared_end)
    by (vm_compute; reflexivity).
  destruct (@session_observer_mirrors_provider shared_machine demo_run
              shared_end signed_in Hfresh Hforeign Hrun)
    as [[returned [_ [Hret [_ [_ [_ [Hobs [b [Hdown [Hb [_ [Hleft _]]]]]]]]]]]] _].
  vm_compute in Hret. injection Hret as <-.
  split; [exact Hrun|]. split; [rewrite Hobs; reflexivity|].
  split; [vm_compute; reflexivity|]. split; [vm_compute; reflexivity|].
  exists b. split; [exact Hdown|]. split; [exact Hb|].
  rewrite Hleft. reflexivity.
Defined.

(** ** Blank prompts *)

(** X1.  The prompts that [generateImage] refuses are those made of
    white space only, the empty one among them: for these, and only for
    these, [prompt.trim()] is empty, the call shows the notification that
    asks for a prompt, and it sends no request.  On the page the button
    is disabled exactly when a generation is in flight or the prompt is
    one of these. *)
Theorem blank_prompts_are_the_refused_ones (w : world) (m : machine) :
  let st := app m in
  let r := exec w (generateImage st) m in
  (trim (App.prompt st) = [] <-> blank (App.prompt st) = true)
  /\ (toasts (trace r) = [Error msg_enter_prompt]
      <-> blank (App.prompt st) = true)
  /\ (requests (trace r) = [] <-> blank (App.prompt st) = true)
  /\ match render st with
     | View.LoadingScreen => App.loading st = true
     | View.Page _ controls _ _ =>
         View.button_disabled controls = true
         <-> App.generating st = true \/ blank (App.prompt st) = true
     end.
Proof.
  intros st r. subst st r.
  destruct (trim_empty_iff_blank (App.prompt (app m))) as [Hempty Hfalsy].
  destruct refusal_is_not_failure as [Hne _].
  split; [exact Hempty|].
  assert (Hcall :
            (toasts (trace (exec w (generateImage (app m)) m))
             = [Error msg_enter_prompt]
             <-> truthy (trim (App.prompt (app m))) = false)
            /\ (requests (trace (exec w (generateImage (app m)) m)) = []
                <-> truthy (trim (App.prompt (app m))) = false)).
  { destruct (generate_cases w m)
      as [Hblank | [Hprompt [Hrej | [reply [Hreply Hdata]]]]].
    - rewrite (exec_generate_blank w m Hblank). cbn in Hblank.
      split; split; auto.
    - rewrite (exec_generate_rejected w m Hprompt Hrej).
      split; split; try congruence; try discriminate;
        try (intros [= H]; now apply Hne in H).
    - destruct Hdata as [Hnil | [first [others Hcons]]].
      + rewrite (exec_generate_empty w m Hprompt Hreply Hnil).
        split; split; try congruence; try discriminate;
          try (intros [= H]; now apply Hne in H).
      + rewrite (exec_generate_success w m Hprompt Hreply Hcons).
        split; split; try congruence; discriminate. }
  destruct Hcall as [Htoast Hsent].
  split; [now rewrite Htoast|]. split; [now rewrite Hsent|].
  unfold render. destruct (App.loading (app m)); [reflexivity|].
  cbn [View.button_disabled].
  rewrite orb_true_iff, negb_true_iff, Hfalsy. reflexivity.
Qed.
